(** * Read-through state cache: [core/state/cached_reader.go]

    A shallow embedding of [CachedReader] and of the parts of
    [shards.StateCache] it drives, followed by the properties of the
    warming / lookup protocol.

    The cache is a mutable object shared by all calls of one reader, so every
    operation is a function of the current cache that returns its result, the
    cache it leaves behind and the list of Backing Store accesses it made. *)

From stdpp Require Import gmap list strings.
From Stdlib Require Import NArith ZArith.

Open Scope N_scope.

(** Go's [[]byte]: one [N] below 256 per byte (or per nibble, below 16). *)
Abbreviation bytes := (list N).

(* ===================================================================== *)
(** ** Values exchanged with the Backing Store *)
(* ===================================================================== *)

(** The two error classes of the core; a Go [error] carries a message. *)
Inductive error : Type :=
| StoreError (msg : string)
| DecodeError (msg : string).

(** A Go return pair [(x, err)]: either [err != nil] or the value. *)
Inductive result (A : Type) : Type :=
| Ok (a : A)
| Err (e : error).
Arguments Ok {A} a.
Arguments Err {A} e.

(** [accounts.Account]. *)
Record Account : Type := mkAccount {
  Nonce : N;
  Balance : N;
  Root : bytes;
  CodeHash : bytes;
  Incarnation : N
}.

(** The two buckets walked by [ReadAccountData]. *)
Inductive Bucket : Type :=
| TrieOfAccountsBucket
| HashedAccountsBucket.

(** One Backing Store access, as a call-counting test double records it. *)
Inductive StoreAccess : Type :=
| GetAccountData (address : bytes)
| GetAccountStorage (address : bytes) (incarnation : N) (key : bytes)
| GetAccountCode (address : bytes) (incarnation : N) (codeHash : bytes)
| GetAccountIncarnation (address : bytes)
| WalkBucket (bucket : Bucket) (startkey : bytes) (fixedbits : Z).

(** Modelled from the spec: the [StateReader] behind the cached reader and the
    [db] handle reached through the [*PlainStateReader] downcast are not under
    src/.  The store is a read-only view, so each point lookup is a function
    of its key; [dbWalk] gives, for a bucket, start key and fixed-bit count,
    the entries the cursor yields in ascending order and the store error that
    ends the scan, if any. *)
Record PlainStateReader : Type := mkReader {
  readAccountData : bytes -> result (option Account);
  readAccountStorage : bytes -> N -> bytes -> result bytes;
  readAccountCode : bytes -> N -> bytes -> result bytes;
  readAccountIncarnation : bytes -> result N;
  dbWalk : Bucket -> bytes -> Z -> list (bytes * bytes) * option error
}.

(* ===================================================================== *)
(** ** Byte helpers ([common], [hexutil]) *)
(* ===================================================================== *)

Definition HashLength : nat := 32.

(** Modelled from the spec: [common.BytesToHash] is not under src/; a Hashed
    Address is a fixed-width value of [HashLength] bytes, a longer slice is
    cropped from the left and a shorter one is right-aligned over zeroes. *)
Definition BytesToHash (b : bytes) : bytes :=
  let b' := drop (length b - HashLength) b in
  replicate (HashLength - length b') 0 ++ b'.

(** Modelled from the spec: [hexutil.DecompressNibbles] (not under src/) turns
    every byte into its high and its low half-byte. *)
Definition DecompressNibbles (input : bytes) : bytes :=
  flat_map (fun b => [N.land (N.shiftr b 4) 15; N.land b 15]) input.

(** Modelled from the spec: [hexutil.CompressNibbles] (not under src/) packs
    two nibbles per byte, the shift wrapping in 8 bits.  It supports an even
    number of nibbles only; the caller pads an odd path with a zero nibble. *)
Fixpoint CompressNibbles (nibbles : bytes) : bytes :=
  match nibbles with
  | hi :: lo :: rest =>
      N.lor (N.land (N.shiftl hi 4) 255) lo :: CompressNibbles rest
  | _ => []
  end.

(* ===================================================================== *)
(** ** [shards.StateCache] *)
(* ===================================================================== *)

(** Modelled from the spec: the descriptor of a trie node (§3,
    TrieNodeDescriptor); [nodeHashes] is the payload [newV] of the node. *)
Record TrieNode : Type := mkTrieNode {
  hasState : bool;
  hasTree : bool;
  hasHash : bool;
  loaded : bool;
  nodeHashes : bytes
}.

(** Modelled from the spec: [shards.StateCache] is not under src/.  It owns
    the four entity maps and the Trie Prefix Index (§3).  An account or a
    storage entry is tri-state: no binding is Unknown, a binding to [None] is
    the Absent marker, a binding to [Some x] is Present.  Account records are
    keyed by Hashed Address. *)
Record StateCache : Type := mkStateCache {
  accounts : gmap bytes (option Account);
  storage : gmap (bytes * N * bytes) (option bytes);
  codes : gmap (bytes * N) bytes;
  deletedAccounts : gmap bytes Account;
  accountTrie : gmap bytes TrieNode
}.

Definition NewStateCache : StateCache :=
  mkStateCache ∅ ∅ ∅ ∅ ∅.

Definition withAccounts (f : gmap bytes (option Account) -> gmap bytes (option Account))
    (c : StateCache) : StateCache :=
  mkStateCache (f (accounts c)) (storage c) (codes c) (deletedAccounts c) (accountTrie c).

Definition withAccountTrie (f : gmap bytes TrieNode -> gmap bytes TrieNode)
    (c : StateCache) : StateCache :=
  mkStateCache (accounts c) (storage c) (codes c) (deletedAccounts c) (f (accountTrie c)).

(** Modelled from the spec: [GetAccountByHash(hashedAddr)], the tri-state
    lookup by Hashed Address. *)
Definition GetAccountByHashedAddress (c : StateCache) (addrHash : bytes)
    : option (option Account) :=
  accounts c !! addrHash.

(** Modelled from the spec: the warming scan writes a decoded record "into
    the Account Cache keyed by its hashed address". *)
Definition DeprecatedSetAccountRead (addrHash : bytes) (a : Account)
    : StateCache -> StateCache :=
  withAccounts <[addrHash := Some a]>.

(** Modelled from the spec: [Insert(prefix, hasState, hasTree, hasHash)]
    "inserts or overwrites a descriptor"; a fresh descriptor is not loaded. *)
Definition SetAccountTrieRead (prefix : bytes) (hs ht hh : bool) (hashes : bytes)
    : StateCache -> StateCache :=
  withAccountTrie <[prefix := mkTrieNode hs ht hh false hashes]>.

(** Modelled from the spec: [MarkLoaded(prefix)] "sets loaded = true on the
    descriptor at prefix"; the descriptor is asserted to exist, and nothing
    changes where it does not. *)
Definition MarkAccountTrieAsLoaded (prefix : bytes) : StateCache -> StateCache :=
  withAccountTrie
    (alter (fun d => mkTrieNode (hasState d) (hasTree d) (hasHash d) true (nodeHashes d)) prefix).

(** The longest stored key among the prefixes of [path] of length at most [n]. *)
Fixpoint deepestNode (idx : gmap bytes TrieNode) (path : bytes) (n : nat)
    : option (bytes * TrieNode) :=
  match idx !! take n path with
  | Some d => Some (take n path, d)
  | None =>
      match n with
      | O => None
      | S m => deepestNode idx path m
      end
  end.

(** Modelled from the spec: [FindDeepestPrefix(P) -> (matchedPrefix, hasState,
    alreadyLoaded, trieMiss)] (§4.1): the longest stored prefix of [P] with
    its flags, or [trieMiss] with no prefix ([nil]) when none is stored. *)
Definition FindDeepestAccountTrie (c : StateCache) (path : bytes)
    : option bytes * bool * bool * bool :=
  match deepestNode (accountTrie c) path (length path) with
  | Some (k, d) => (Some k, hasState d, loaded d, false)
  | None => (None, false, false, true)
  end.

(** Modelled from the spec: storage records are "keyed by (Address,
    incarnation, storage-key)". *)
Definition GetStorage (c : StateCache) (address : bytes) (incarnation : N) (key : bytes)
    : option (option bytes) :=
  storage c !! (address, incarnation, key).

Definition SetStorageRead (address : bytes) (incarnation : N) (key value : bytes)
    (c : StateCache) : StateCache :=
  mkStateCache (accounts c) (<[(address, incarnation, key) := Some value]> (storage c))
    (codes c) (deletedAccounts c) (accountTrie c).

Definition SetStorageAbsent (address : bytes) (incarnation : N) (key : bytes)
    (c : StateCache) : StateCache :=
  mkStateCache (accounts c) (<[(address, incarnation, key) := None]> (storage c))
    (codes c) (deletedAccounts c) (accountTrie c).

(** Modelled from the spec: code records are "keyed by (Address,
    incarnation)". *)
Definition GetCode (c : StateCache) (address : bytes) (incarnation : N) : option bytes :=
  codes c !! (address, incarnation).

(** Modelled from the spec: [SetCodeRead(addr, incarnation, code)] is a
    "no-op if len(code) > 1024". *)
Definition SetCodeRead (address : bytes) (incarnation : N) (code : bytes)
    (c : StateCache) : StateCache :=
  if decide (length code ≤ 1024)%nat then
    mkStateCache (accounts c) (storage c) (<[(address, incarnation) := code]> (codes c))
      (deletedAccounts c) (accountTrie c)
  else c.

(** Modelled from the spec: [GetDeletedAccount(addr)], the marker of an
    account deleted in the current view. *)
Definition GetDeletedAccount (c : StateCache) (address : bytes) : option Account :=
  deletedAccounts c !! address.

(* ===================================================================== *)
(** ** Computations over the shared cache *)
(* ===================================================================== *)

(** A computation reads and updates the cache and reports the store accesses
    it made, oldest first. *)
Definition M (A : Type) : Type := StateCache -> A * StateCache * list StoreAccess.

Definition ret {A} (a : A) : M A := fun c => (a, c, []).

Definition bind {A B} (m : M A) (f : A -> M B) : M B :=
  fun c =>
    let '(a, c1, t1) := m c in
    let '(b, c2, t2) := f a c1 in
    (b, c2, t1 ++ t2).

Definition gets {A} (f : StateCache -> A) : M A := fun c => (f c, c, []).

Definition modify (f : StateCache -> StateCache) : M unit := fun c => (tt, f c, []).

(** A store access: the value the store gives, logged. *)
Definition access {A} (ev : StoreAccess) (a : A) : M A := fun c => (a, c, [ev]).

Notation "'let*' x ':=' m 'in' k" := (bind m (fun x => k))
  (at level 10, x pattern, m at level 100, k at level 200).
Notation "m ';;;' k" := (bind m (fun _ => k))
  (at level 100, k at level 200, right associativity).

(* ===================================================================== *)
(** ** [CachedReader] *)
(* ===================================================================== *)

Definition ReadStateByPrefixes : bool := true.

(** Go's [len] of a possibly-nil slice and the slice itself. *)
Definition sliceOf (k : option bytes) : bytes := default [] k.

Section CachedReader.

(** The Keccak sponge, the account and trie-node decoders and the hash of
    the empty code are external to this package. *)
Variable sha : bytes -> bytes.
Variable DecodeForStorage : bytes -> result Account.
Variable UnmarshalTrieNodeTyped : bytes -> bool * bool * bool * bytes.
Variable emptyCodeHash : bytes.

(** Lines 48-53: [h.Sha.Read(hashed[:])] fills the zero-initialised
    [common.Hash] array with the first [HashLength] bytes of the digest. *)
Definition hashAddress (addrBytes : bytes) : bytes :=
  take HashLength (sha addrBytes ++ replicate HashLength 0).

(** Modelled from the spec: [GetAccount(addr)] answers from the Account
    Cache, whose records are keyed by Hashed Address. *)
Definition GetAccount (c : StateCache) (address : bytes) : option (option Account) :=
  accounts c !! hashAddress address.

Definition SetAccountRead (address : bytes) (a : Account) : StateCache -> StateCache :=
  withAccounts <[hashAddress address := Some a]>.

Definition SetAccountAbsent (address : bytes) : StateCache -> StateCache :=
  withAccounts <[hashAddress address := None]>.

(** Modelled from the spec: [Walk(bucket, startKey, fixedBitsPrefix, visit)]
    (§6) invokes [visit] per entry; the "scan stops on continue == false,
    on error, or on exhausting the prefix".  [tail] is the store error met
    after the last entry.  The walker is a closure over the cache and over
    the locals [l] of its caller. *)
Fixpoint walkLoop {L : Type}
    (walker : bytes -> bytes -> L -> StateCache -> bool * option error * L * StateCache)
    (entries : list (bytes * bytes)) (tail : option error) (l : L) (c : StateCache)
    : option error * L * StateCache :=
  match entries with
  | [] => (tail, l, c)
  | (k, v) :: rest =>
      let '(goOn, err, l1, c1) := walker k v l c in
      match err with
      | Some e => (Some e, l1, c1)
      | None => if goOn then walkLoop walker rest tail l1 c1 else (None, l1, c1)
      end
  end.

Definition Walk {L : Type} (r : PlainStateReader) (bucket : Bucket) (startkey : bytes)
    (fixedbits : Z)
    (walker : bytes -> bytes -> L -> StateCache -> bool * option error * L * StateCache)
    (l : L) : M (option error * L) :=
  fun c =>
    let '(entries, tail) := dbWalk r bucket startkey fixedbits in
    let '(err, l1, c1) := walkLoop walker entries tail l c in
    ((err, l1), c1, [WalkBucket bucket startkey fixedbits]).

(** Lines 59-62: the walker of the trie-node scan. *)
Definition trieWalker (k v : bytes) (l : unit) (c : StateCache)
    : bool * option error * unit * StateCache :=
  let '(hasState, hasTree, hasHash, newV) := UnmarshalTrieNodeTyped v in
  (true, None, l, SetAccountTrieRead k hasState hasTree hasHash newV c).

(** Lines 93-111: the walker of the account scan; its locals are the
    captured variables [found] and [a]. *)
Definition accountWalker (hashed : bytes) (k v : bytes) (l : bool * option Account)
    (c : StateCache) : bool * option error * (bool * option Account) * StateCache :=
  match GetAccountByHashedAddress c (BytesToHash k) with
  | Some acc =>
      (true, None, (if bool_decide (k = hashed) then (true, acc) else l), c)
  | None =>
      match DecodeForStorage v with
      | Err e => (false, Some e, l, c)
      | Ok acc =>
          let c1 := DeprecatedSetAccountRead (BytesToHash k) acc c in
          (true, None, (if bool_decide (k = hashed) then (true, Some acc) else l), c1)
      end
  end.

(** Lines 36-45 and, verbatim again, lines 70-79: one point lookup, cached
    as Present or Absent. *)
Definition readThrough (r : PlainStateReader) (address : bytes)
    : M (result (option Account)) :=
  let* res := access (GetAccountData address) (readAccountData r address) in
  match res with
  | Err e => ret (Err e)
  | Ok None => modify (SetAccountAbsent address) ;;; ret (Ok None)
  | Ok (Some a) => modify (SetAccountRead address a) ;;; ret (Ok (Some a))
  end.

(** Lines 57-67: the deepest-prefix search, with one scan of the trie-node
    bucket on a miss. *)
Definition searchAccountTrie (r : PlainStateReader) (hashedNibbles : bytes)
    : M (result (option bytes * bool * bool * bool)) :=
  let* (ihK, hasState, alreadyLoaded, trieMiss) :=
    gets (fun c => FindDeepestAccountTrie c hashedNibbles) in
  if trieMiss then
    let* (err, _) :=
      Walk r TrieOfAccountsBucket (sliceOf ihK) (Z.of_nat (length (sliceOf ihK)) * 8)
        trieWalker tt in
    match err with
    | Some e => ret (Err e)
    | None =>
        let* found := gets (fun c => FindDeepestAccountTrie c hashedNibbles) in
        ret (Ok found)
    end
  else ret (Ok (ihK, hasState, alreadyLoaded, trieMiss)).

(** Lines 85-90: the start key of the account scan, the matched nibble
    prefix padded to an even length and packed, and the number of its bits
    that are fixed. *)
Definition accountScanBits (ihK : bytes) : Z :=
  let buf := ihK in
  Z.of_nat (length buf) * 4.

Definition accountScanKey (ihK : bytes) : bytes :=
  let buf := ihK in
  let buf := if Nat.eqb (length buf mod 2) 1 then buf ++ [0] else buf in
  CompressNibbles buf.

(** Lines 69-119: what follows the search. *)
Definition readBySearchResult (r : PlainStateReader) (address hashed : bytes)
    (ihK : option bytes) (hasState alreadyLoaded : bool)
    : M (result (option Account)) :=
  match ihK with
  | None => readThrough r address
  | Some ihK =>
      if negb hasState || alreadyLoaded then
        modify (SetAccountAbsent address) ;;; ret (Ok None)
      else
        let buf := accountScanKey ihK in
        let fixedBits := accountScanBits ihK in
        let* (err, (found, a)) :=
          Walk r HashedAccountsBucket buf fixedBits (accountWalker hashed) (false, None) in
        match err with
        | Some e => ret (Err e)
        | None =>
            (if negb found then modify (SetAccountAbsent address) else ret tt) ;;;
            modify (MarkAccountTrieAsLoaded ihK) ;;;
            ret (Ok a)
        end
  end.

(** [ReadAccountData], lines 29-120. *)
Definition ReadAccountData (r : PlainStateReader) (address : bytes)
    : M (result (option Account)) :=
  let addrBytes := address in
  let* hit := gets (fun c => GetAccount c addrBytes) in
  match hit with
  | Some a => ret (Ok a)
  | None =>
      if negb ReadStateByPrefixes then readThrough r address
      else
        let hashed := hashAddress addrBytes in
        let hashedNibbles := DecompressNibbles hashed in
        let* s := searchAccountTrie r hashedNibbles in
        match s with
        | Err e => ret (Err e)
        | Ok (ihK, hasState, alreadyLoaded, _) =>
            readBySearchResult r address hashed ihK hasState alreadyLoaded
        end
  end.

(** [ReadAccountStorage], lines 123-138. *)
Definition ReadAccountStorage (r : PlainStateReader) (address : bytes) (incarnation : N)
    (key : bytes) : M (result bytes) :=
  let addrBytes := address in
  let* hit := gets (fun c => GetStorage c addrBytes incarnation key) in
  match hit with
  | Some s => ret (Ok (default [] s))
  | None =>
      let* res := access (GetAccountStorage address incarnation key)
                    (readAccountStorage r address incarnation key) in
      match res with
      | Err e => ret (Err e)
      | Ok v =>
          (if Nat.eqb (length v) 0 then modify (SetStorageAbsent addrBytes incarnation key)
           else modify (SetStorageRead addrBytes incarnation key v)) ;;;
          ret (Ok v)
      end
  end.

(** [ReadAccountCode], lines 142-157.  The cache pointer is the one [GetCode]
    has just been called on, so [cr.cache != nil] holds at line 153. *)
Definition ReadAccountCode (r : PlainStateReader) (address : bytes) (incarnation : N)
    (codeHash : bytes) : M (result bytes) :=
  if bool_decide (codeHash = emptyCodeHash) then ret (Ok [])
  else
    let* hit := gets (fun c => GetCode c address incarnation) in
    match hit with
    | Some c => ret (Ok c)
    | None =>
        let* res := access (GetAccountCode address incarnation codeHash)
                      (readAccountCode r address incarnation codeHash) in
        match res with
        | Err e => ret (Err e)
        | Ok c =>
            (if decide (length c ≤ 1024)%nat then modify (SetCodeRead address incarnation c)
             else ret tt) ;;;
            ret (Ok c)
        end
    end.

(** [ReadAccountCodeSize], lines 159-162. *)
Definition ReadAccountCodeSize (r : PlainStateReader) (address : bytes) (incarnation : N)
    (codeHash : bytes) : M (nat * option error) :=
  let* res := ReadAccountCode r address incarnation codeHash in
  match res with
  | Ok c => ret (length c, None)
  | Err e => ret (O, Some e)
  end.

(** [ReadAccountIncarnation], lines 165-171. *)
Definition ReadAccountIncarnation (r : PlainStateReader) (address : bytes)
    : M (result N) :=
  let* deleted := gets (fun c => GetDeletedAccount c address) in
  match deleted with
  | Some d => ret (Ok (Incarnation d))
  | None => access (GetAccountIncarnation address) (readAccountIncarnation r address)
  end.

End CachedReader.

(* ===================================================================== *)
(** ** A test double for the Backing Store *)
(* ===================================================================== *)

(** Stand-ins for the external codecs, used to run the reader on concrete
    inputs: the digest of an address is the address itself (zero-padded to a
    hash by [hashAddress]); an account record is one byte, its nonce; a trie
    node is three flag bytes followed by its hashes. *)
Module Double.

Definition sha (b : bytes) : bytes := b.

Definition DecodeForStorage (v : bytes) : result Account :=
  match v with
  | [n] => Ok (mkAccount n 0 [] [] 0)
  | _ => Err (DecodeError "malformed account")
  end.

Definition flag (b : N) : bool := negb (N.eqb b 0).

Definition UnmarshalTrieNodeTyped (v : bytes) : bool * bool * bool * bytes :=
  match v with
  | s :: t :: h :: rest => (flag s, flag t, flag h, rest)
  | _ => (false, false, false, [])
  end.

(** The leading bytes of the Keccak hash of the empty string. *)
Definition emptyCodeHash : bytes := [197; 210; 70; 1].

(** A store with the given trie nodes (keyed by nibble path) and account
    records (keyed by hashed address); a walk yields the entries that share
    the fixed bits of the start key, then [tail]. *)
Definition store (nodes accs : list (bytes * bytes)) (tail : option error)
    (code : bytes) : PlainStateReader :=
  mkReader
    (fun address =>
       match list_find (fun kv => kv.1 = hashAddress sha address) accs with
       | Some (_, (_, v)) =>
           match DecodeForStorage v with
           | Ok a => Ok (Some a)
           | Err e => Err e
           end
       | None => Ok None
       end)
    (fun _ _ _ => Ok [7])
    (fun _ _ _ => Ok code)
    (fun _ => Ok 0)
    (fun bucket startkey fixedbits =>
       match bucket with
       | TrieOfAccountsBucket =>
           (filter (fun kv => take (Z.to_nat (fixedbits / 8)) kv.1
                              = take (Z.to_nat (fixedbits / 8)) startkey) nodes, tail)
       | HashedAccountsBucket =>
           (filter (fun kv => take (Z.to_nat (fixedbits / 4)) (DecompressNibbles kv.1)
                              = take (Z.to_nat (fixedbits / 4)) (DecompressNibbles startkey))
                   accs, tail)
       end).

Definition pad (b : bytes) : bytes := hashAddress sha b.

Definition ReadAccountData := ReadAccountData sha DecodeForStorage UnmarshalTrieNodeTyped.
Definition ReadAccountCode := ReadAccountCode emptyCodeHash.

(** The scenario of §8: a node at prefix f0 with [hasState] and two account
    records under f0; a third address under f0 that the store does not hold. *)
Definition nodeF0 : bytes * bytes := ([15; 0], [1; 0; 0]).
Definition accF0A9 : bytes := [240; 169].
Definition accF0B1 : bytes := [240; 177].
Definition accF0C2 : bytes := [240; 194].
Definition scenario : PlainStateReader :=
  store [nodeF0] [(pad accF0A9, [5]); (pad accF0B1, [6])] None [].

(** The same store with a record under f0 that does not decode. *)
Definition corrupted : PlainStateReader :=
  store [nodeF0] [(pad accF0A9, [5]); (pad accF0B1, [6; 6])] None [].

(** A store whose node at f0 says the subtree holds no account. *)
Definition stateless : PlainStateReader :=
  store [([15; 0], [0; 0; 0])] [] None [].

(** A store without any trie node. *)
Definition unsummarised : PlainStateReader :=
  store [] [(pad accF0A9, [5])] None [].

(** A store whose every code blob is [n] bytes long. *)
Definition blob (n : nat) : bytes := replicate n 7.

Definition codeStore (n : nat) : PlainStateReader :=
  store [] [] None (blob n).

Definition account (nonce : N) : Account := mkAccount nonce 0 [] [] 0.

(** The cache the first read of the scenario leaves. *)
Definition warmed : StateCache :=
  (ReadAccountData scenario accF0A9 NewStateCache).1.2.

(** An index that knows the subtree f0 to hold no account. *)
Definition emptySubtree : StateCache :=
  SetAccountTrieRead [15; 0] false false false [] NewStateCache.

End Double.

(* ===================================================================== *)
(** ** Properties *)
(* ===================================================================== *)

(** Two caches that differ in their account records at most. *)
Definition sameButAccounts (c c' : StateCache) : Prop :=
  storage c' = storage c /\ codes c' = codes c /\
  deletedAccounts c' = deletedAccounts c /\ accountTrie c' = accountTrie c.

(** Two caches that differ in their Trie Prefix Index at most. *)
Definition sameButTrie (c c' : StateCache) : Prop :=
  accounts c' = accounts c /\ storage c' = storage c /\ codes c' = codes c /\
  deletedAccounts c' = deletedAccounts c.

(** [c'] extends the account records of [c]: no binding is changed, and every
    new binding is a Present record. *)
Definition accountsExtended (c c' : StateCache) : Prop :=
  forall h, match accounts c !! h with
            | Some x => accounts c' !! h = Some x
            | None => accounts c' !! h = None \/ exists acc, accounts c' !! h = Some (Some acc)
            end.

(** What the account scan maintains about its locals [found] and [a] and the
    record of the target: the record is Unknown or Present, and once [found]
    is set, [a] is the Present record of the target. *)
Definition scanInv (hashed : bytes) (l : bool * option Account) (c : StateCache) : Prop :=
  (accounts c !! hashed = None \/ exists acc, accounts c !! hashed = Some (Some acc)) /\
  (l.1 = true -> exists acc, l.2 = Some acc /\ accounts c !! hashed = Some (Some acc)).

(** The prefix the deepest-prefix search resolves a path to, if any. *)
Definition deepestPrefix (c : StateCache) (path : bytes) : option bytes :=
  (FindDeepestAccountTrie c path).1.1.1.

(** The cache a sequence of [ReadAccountData] calls on one reader leaves. *)
Definition cacheAfterReads (sha : bytes -> bytes) (DecodeForStorage : bytes -> result Account)
    (UnmarshalTrieNodeTyped : bytes -> bool * bool * bool * bytes)
    (r : PlainStateReader) (addresses : list bytes) (c : StateCache) : StateCache :=
  fold_left
    (fun c a => (ReadAccountData sha DecodeForStorage UnmarshalTrieNodeTyped r a c).1.2)
    addresses c.

(** The scans of the hashed-account bucket among the accesses [t]. *)
Definition isAccountScan (ev : StoreAccess) : bool :=
  match ev with
  | WalkBucket HashedAccountsBucket _ _ => true
  | _ => false
  end.

Definition isTrieScan (ev : StoreAccess) : bool :=
  match ev with
  | WalkBucket TrieOfAccountsBucket _ _ => true
  | _ => false
  end.

Definition accountScans (t : list StoreAccess) : nat :=
  length (filter (fun ev => isAccountScan ev = true) t).

(** The scans of the trie-node bucket among the accesses [t]. *)
Definition trieScans (t : list StoreAccess) : nat :=
  length (filter (fun ev => isTrieScan ev = true) t).

(** The index after every entry of a trie-node scan has been inserted. *)
Definition warmTrie (UnmarshalTrieNodeTyped : bytes -> bool * bool * bool * bytes)
    (entries : list (bytes * bytes)) (c : StateCache) : StateCache :=
  fold_left (fun c kv => (trieWalker UnmarshalTrieNodeTyped kv.1 kv.2 tt c).2) entries c.

Lemma BytesToHash_fixed (b : bytes) : length b = HashLength -> BytesToHash b = b.
Proof.
  intros Hlen. unfold BytesToHash. cbv zeta.
  rewrite Hlen, Nat.sub_diag, drop_0, Hlen, Nat.sub_diag. reflexivity.
Qed.

Lemma sameButAccounts_refl c : sameButAccounts c c.
Proof. repeat split. Qed.

Lemma sameButAccounts_trans c1 c2 c3 :
  sameButAccounts c1 c2 -> sameButAccounts c2 c3 -> sameButAccounts c1 c3.
Proof.
  intros (?&?&?&?) (?&?&?&?). repeat split; congruence.
Qed.

Lemma accountsExtended_refl c : accountsExtended c c.
Proof. intros h. destruct (accounts c !! h); auto. Qed.

Lemma accountsExtended_trans c1 c2 c3 :
  accountsExtended c1 c2 -> accountsExtended c2 c3 -> accountsExtended c1 c3.
Proof.
  intros H12 H23 h. specialize (H12 h). specialize (H23 h).
  destruct (accounts c1 !! h) as [x|].
  - rewrite H12 in H23. exact H23.
  - destruct H12 as [H12|[acc H12]]; rewrite H12 in H23; eauto.
Qed.

Lemma accountsExtended_insert_present c h acc :
  accounts c !! h = None ->
  accountsExtended c (DeprecatedSetAccountRead h acc c).
Proof.
  intros Hnone h'. simpl. destruct (decide (h = h')) as [<-|Hne].
  - rewrite Hnone, lookup_insert_eq. eauto.
  - rewrite lookup_insert_ne by done. destruct (accounts c !! h'); auto.
Qed.

Section Properties.

Context (sha : bytes -> bytes) (DecodeForStorage : bytes -> result Account)
        (UnmarshalTrieNodeTyped : bytes -> bool * bool * bool * bytes)
        (emptyCodeHash : bytes).

Local Abbreviation hashOf := (hashAddress sha).
Local Abbreviation pathOf a := (DecompressNibbles (hashAddress sha a)).
Local Abbreviation RAD := (ReadAccountData sha DecodeForStorage UnmarshalTrieNodeTyped).
Local Abbreviation getAccount := (GetAccount sha).
Local Abbreviation setAbsent := (SetAccountAbsent sha).
Local Abbreviation setRead := (SetAccountRead sha).
Local Abbreviation scanWalker := (accountWalker DecodeForStorage).
Local Abbreviation nodeWalker := (trieWalker UnmarshalTrieNodeTyped).
Local Abbreviation warmIdx := (warmTrie UnmarshalTrieNodeTyped).

Lemma hashAddress_length a : length (hashOf a) = HashLength.
Proof.
  unfold hashAddress. rewrite length_take, length_app, length_replicate. lia.
Qed.

Lemma BytesToHash_hashAddress a : BytesToHash (hashOf a) = hashOf a.
Proof. apply BytesToHash_fixed, hashAddress_length. Qed.

(** *** The trie-node scan *)

Lemma trieWalker_continues k v c :
  exists c', nodeWalker k v tt c = (true, None, tt, c') /\ sameButTrie c c'.
Proof.
  unfold trieWalker. destruct (UnmarshalTrieNodeTyped v) as [[[hs ht] hh] nv].
  eexists. split; [reflexivity|]. repeat split.
Qed.

Lemma walkLoop_trieWalker entries tail c :
  walkLoop nodeWalker entries tail tt c = (tail, tt, warmIdx entries c).
Proof.
  revert c. induction entries as [|[k v] rest IH]; intros c; simpl; [reflexivity|].
  destruct (trieWalker_continues k v c) as (c' & Hw & _).
  unfold warmTrie. simpl. rewrite Hw. simpl. apply IH.
Qed.

Lemma warmTrie_sameButTrie entries c : sameButTrie c (warmIdx entries c).
Proof.
  revert c. induction entries as [|[k v] rest IH]; intros c; [repeat split|].
  unfold warmTrie. simpl.
  destruct (trieWalker_continues k v c) as (c' & Hw & (?&?&?&?)).
  rewrite Hw. simpl. destruct (IH c') as (?&?&?&?).
  repeat split; etrans; eauto.
Qed.

(** *** The account scan *)

Lemma accountWalker_cases hashed k v l c :
  (exists acc, accounts c !! BytesToHash k = Some acc /\
     scanWalker hashed k v l c
     = (true, None, (if bool_decide (k = hashed) then (true, acc) else l), c))
  \/ (accounts c !! BytesToHash k = None /\ exists e, DecodeForStorage v = Err e /\
       scanWalker hashed k v l c = (false, Some e, l, c))
  \/ (accounts c !! BytesToHash k = None /\ exists acc, DecodeForStorage v = Ok acc /\
       scanWalker hashed k v l c
       = (true, None, (if bool_decide (k = hashed) then (true, Some acc) else l),
          DeprecatedSetAccountRead (BytesToHash k) acc c)).
Proof.
  unfold accountWalker, GetAccountByHashedAddress.
  destruct (accounts c !! BytesToHash k) as [acc|] eqn:Hc.
  - left. eauto.
  - right. destruct (DecodeForStorage v) as [acc|e] eqn:Hd; [right|left]; eauto.
Qed.

(** One step of the scan: what it leaves of the cache, of the invariant and
    of the other keys, and that it continues unless it fails. *)
Lemma accountWalker_step hashed k v l c goOn err l' c' :
  scanWalker hashed k v l c = (goOn, err, l', c') ->
  accountsExtended c c' /\ sameButAccounts c c' /\
  (forall h, h <> BytesToHash k -> accounts c' !! h = accounts c !! h) /\
  (err = None -> goOn = true /\ is_Some (accounts c' !! BytesToHash k) /\
                 (l.1 = true \/ k = hashed -> l'.1 = true)) /\
  (length hashed = HashLength -> scanInv hashed l c -> scanInv hashed l' c').
Proof.
  intros Hw.
  destruct (accountWalker_cases hashed k v l c)
    as [(acc & Hc & Hw') | [(Hc & e & Hd & Hw') | (Hc & acc & Hd & Hw')]];
    rewrite Hw' in Hw; inversion Hw; subst; clear Hw.
  - split; [apply accountsExtended_refl|]. split; [apply sameButAccounts_refl|].
    split; [done|]. split.
    + intros _. split; [done|]. split; [by rewrite Hc|].
      intros [Hl| ->]; [|by rewrite bool_decide_eq_true_2].
      case_bool_decide; done.
    + intros Hlen [Hrec Hfound]. split; [done|].
      case_bool_decide as Hk; [|done]. subst k. intros _.
      rewrite (BytesToHash_fixed _ Hlen) in Hc.
      destruct Hrec as [Hrec|[acc' Hrec]]; rewrite Hrec in Hc; [done|].
      inversion Hc; subst. eauto.
  - split; [apply accountsExtended_refl|]. split; [apply sameButAccounts_refl|].
    split; [done|]. split; [done|]. done.
  - split; [by apply accountsExtended_insert_present|].
    split; [repeat split|]. split; [|split].
    + intros h Hne. simpl. by rewrite lookup_insert_ne.
    + intros _. split; [done|]. split; [simpl; by rewrite lookup_insert_eq|].
      intros [Hl| ->]; [|by rewrite bool_decide_eq_true_2].
      case_bool_decide; done.
    + intros Hlen [Hrec Hfound]. unfold scanInv. simpl.
      destruct (decide (BytesToHash k = hashed)) as [Heq|Hne].
      * split; [right; exists acc; by rewrite <- Heq, lookup_insert_eq|].
        case_bool_decide as Hk.
        -- intros _. exists acc. split; [done|]. by rewrite <- Heq, lookup_insert_eq.
        -- intros Hl. destruct (Hfound Hl) as (acc' & _ & Hrec').
           rewrite <- Heq, Hc in Hrec'. done.
      * assert (k <> hashed) as Hk.
        { intros ->. by rewrite (BytesToHash_fixed _ Hlen) in Hne. }
        rewrite bool_decide_eq_false_2 by done.
        split; [|intros Hl]; rewrite lookup_insert_ne by done; auto.
Qed.

(** The whole scan. *)
Lemma scan_loop hashed entries tail l c err l' c' :
  walkLoop (scanWalker hashed) entries tail l c = (err, l', c') ->
  accountsExtended c c' /\ sameButAccounts c c' /\
  (forall h, (forall kv, kv ∈ entries -> h <> BytesToHash kv.1) ->
             accounts c' !! h = accounts c !! h) /\
  (err = None -> tail = None /\
                 (forall kv, kv ∈ entries -> is_Some (accounts c' !! BytesToHash kv.1)) /\
                 (l.1 = true \/ hashed ∈ entries.*1 -> l'.1 = true)) /\
  (length hashed = HashLength -> scanInv hashed l c -> scanInv hashed l' c').
Proof.
  revert l c. induction entries as [|[k v] rest IH]; intros l c Hloop; simpl in Hloop.
  - inversion Hloop; subst.
    split; [apply accountsExtended_refl|]. split; [apply sameButAccounts_refl|].
    split; [done|]. split; [|done].
    intros ->. split; [done|]. split; [by intros kv ?%elem_of_nil|].
    intros [?|?%elem_of_nil]; done.
  - destruct (scanWalker hashed k v l c) as [[[goOn e] l1] c1] eqn:Hw.
    destruct (accountWalker_step _ _ _ _ _ _ _ _ _ Hw) as (Hext & Hsame & Hframe & Hgo & Hinv).
    destruct e as [e|].
    { inversion Hloop; subst.
      split; [done|]. split; [done|]. split; [|split; [done|done]].
      intros h Hh. apply Hframe. apply (Hh (k, v)). left. }
    destruct (Hgo eq_refl) as (-> & Hcached & Hfound).
    destruct (IH _ _ Hloop) as (Hext' & Hsame' & Hframe' & Hgo' & Hinv').
    split; [eapply accountsExtended_trans; eauto|].
    split; [eapply sameButAccounts_trans; eauto|].
    split; [|split].
    + intros h Hh. rewrite Hframe'.
      * apply Hframe. apply (Hh (k, v)). left.
      * intros kv Hin. apply Hh. by right.
    + intros ->. destruct (Hgo' eq_refl) as (-> & Hall & Hfound').
      split; [done|]. split.
      * intros kv [->|Hin]%elem_of_cons; [|by apply Hall].
        destruct Hcached as [x Hx]. specialize (Hext' (BytesToHash k)).
        simpl. rewrite Hx in Hext'. by rewrite Hext'.
      * intros [Hl|Hin]; apply Hfound'; [left; apply Hfound; by left|].
        simpl in Hin. apply elem_of_cons in Hin as [->|Hin]; [|by right].
        left. apply Hfound. by right.
    + intros Hlen Hi. apply Hinv'; [done|]. by apply Hinv.
Qed.

(** *** The stages of [ReadAccountData] *)

Lemma readThrough_eq r A c :
  readThrough sha r A c
  = match readAccountData r A with
    | Err e => (Err e, c, [GetAccountData A])
    | Ok None => (Ok None, setAbsent A c, [GetAccountData A])
    | Ok (Some a) => (Ok (Some a), setRead A a c, [GetAccountData A])
    end.
Proof.
  unfold readThrough, bind, access, modify, ret.
  destruct (readAccountData r A) as [[a|]|e]; reflexivity.
Qed.

Lemma searchAccountTrie_cases r P c :
  (exists ihK hs ld, FindDeepestAccountTrie c P = (ihK, hs, ld, false) /\
     searchAccountTrie UnmarshalTrieNodeTyped r P c = (Ok (ihK, hs, ld, false), c, []))
  \/ (exists ihK hs ld es tail,
       FindDeepestAccountTrie c P = (ihK, hs, ld, true) /\
       dbWalk r TrieOfAccountsBucket (sliceOf ihK) (Z.of_nat (length (sliceOf ihK)) * 8)
       = (es, tail) /\
       searchAccountTrie UnmarshalTrieNodeTyped r P c
       = (match tail with
          | Some e => Err e
          | None => Ok (FindDeepestAccountTrie (warmIdx es c) P)
          end,
          warmIdx es c,
          [WalkBucket TrieOfAccountsBucket (sliceOf ihK)
             (Z.of_nat (length (sliceOf ihK)) * 8)])).
Proof.
  unfold searchAccountTrie, bind, gets, Walk, ret.
  destruct (FindDeepestAccountTrie c P) as [[[ihK hs] ld] [|]] eqn:Hfind.
  - right. exists ihK, hs, ld.
    destruct (dbWalk r TrieOfAccountsBucket (sliceOf ihK) _) as [es tail] eqn:Hwalk.
    exists es, tail. split; [done|]. split; [done|].
    rewrite walkLoop_trieWalker. destruct tail; reflexivity.
  - left. exists ihK, hs, ld. done.
Qed.

Lemma readBySearchResult_cases r A hashed ihK hs ld c :
  (ihK = None /\
     readBySearchResult sha DecodeForStorage r A hashed ihK hs ld c = readThrough sha r A c)
  \/ (exists K, ihK = Some K /\ (hs = false \/ ld = true) /\
       readBySearchResult sha DecodeForStorage r A hashed ihK hs ld c
       = (Ok None, setAbsent A c, []))
  \/ (exists K es tail err found a cs,
       ihK = Some K /\ hs = true /\ ld = false /\
       dbWalk r HashedAccountsBucket (accountScanKey K) (accountScanBits K) = (es, tail) /\
       walkLoop (scanWalker hashed) es tail (false, None) c = (err, (found, a), cs) /\
       readBySearchResult sha DecodeForStorage r A hashed ihK hs ld c
       = (match err with Some e => Err e | None => Ok a end,
          match err with
          | Some _ => cs
          | None => MarkAccountTrieAsLoaded K (if found then cs else setAbsent A cs)
          end,
          [WalkBucket HashedAccountsBucket (accountScanKey K) (accountScanBits K)])).
Proof.
  destruct ihK as [K|]; [|left; done]. right.
  unfold readBySearchResult.
  destruct (negb hs || ld) eqn:Hflags.
  - left. exists K. split; [done|]. split; [|reflexivity].
    destruct hs, ld; auto; discriminate.
  - right. destruct hs, ld; try discriminate.
    unfold bind, Walk, modify, ret.
    destruct (dbWalk r HashedAccountsBucket _ _) as [es tail] eqn:Hwalk.
    destruct (walkLoop _ es tail _ c) as [[err [found a]] cs] eqn:Hloop.
    exists K, es, tail, err, found, a, cs. repeat (split; [done|]).
    destruct err; [reflexivity|]. destruct found; reflexivity.
Qed.

Lemma ReadAccountData_hit r A c a :
  getAccount c A = Some a -> RAD r A c = (Ok a, c, []).
Proof. intros Hhit. unfold ReadAccountData, bind, gets, ret. by rewrite Hhit. Qed.

Lemma ReadAccountData_miss r A c :
  getAccount c A = None ->
  RAD r A c
  = let '(s, cw, t0) := searchAccountTrie UnmarshalTrieNodeTyped r (pathOf A) c in
    match s with
    | Err e => (Err e, cw, t0 ++ [])
    | Ok (ihK, hs, ld, _) =>
        let '(res, c', t1) :=
          readBySearchResult sha DecodeForStorage r A (hashOf A) ihK hs ld cw in
        (res, c', t0 ++ t1)
    end.
Proof.
  intros Hmiss. unfold ReadAccountData, bind, gets, ret. rewrite Hmiss. simpl.
  destruct (searchAccountTrie _ r _ c) as [[[[[[ihK hs] ld] m]|e] cw] t0]; [|reflexivity].
  destruct (readBySearchResult _ _ r A _ ihK hs ld cw) as [[res c'] t1]. reflexivity.
Qed.

(** *** The deepest-prefix search *)

Lemma take_length_take (P : bytes) n : take (length (take n P)) P = take n P.
Proof.
  rewrite length_take.
  destruct (Nat.min_spec n (length P)) as [[? ->]|[? ->]]; [done|].
  by rewrite !take_ge by lia.
Qed.

Lemma deepestNode_Some idx (P : bytes) n k d :
  deepestNode idx P n = Some (k, d) -> idx !! k = Some d /\ k = take (length k) P.
Proof.
  induction n as [|n IH]; simpl; destruct (idx !! take _ P) as [d'|] eqn:Hl;
    intros Hd; try done; try (by apply IH);
    injection Hd as <- <-; (split; [done|]); symmetry; apply take_length_take.
Qed.

Lemma deepestNode_alter idx f K (P : bytes) n :
  deepestNode (alter f K idx) P n
  = (fun kd => (kd.1, if decide (K = kd.1) then f kd.2 else kd.2)) <$> deepestNode idx P n.
Proof.
  induction n as [|n IH]; simpl; rewrite lookup_alter;
    destruct (decide (K = take _ P)) as [->|HK];
    destruct (idx !! take _ P) as [d|] eqn:Hl; simpl; rewrite ?Hl; simpl;
    rewrite ?decide_True, ?decide_False by done; done.
Qed.

Lemma FindDeepest_Some c P K hs ld m :
  FindDeepestAccountTrie c P = (Some K, hs, ld, m) ->
  m = false /\ exists d, accountTrie c !! K = Some d /\ hs = hasState d /\ ld = loaded d.
Proof.
  unfold FindDeepestAccountTrie.
  destruct (deepestNode _ P _) as [[k d]|] eqn:Hd; [|done].
  intros [= <- <- <- <-]. apply deepestNode_Some in Hd as [Hd _]. eauto.
Qed.

Lemma FindDeepest_None c P hs ld m :
  FindDeepestAccountTrie c P = (None, hs, ld, m) -> hs = false /\ ld = false /\ m = true.
Proof.
  unfold FindDeepestAccountTrie.
  destruct (deepestNode _ P _) as [[k d]|] eqn:Hd; [done|]. by intros [= <- <- <-].
Qed.

Lemma FindDeepest_miss c P ihK hs ld :
  FindDeepestAccountTrie c P = (ihK, hs, ld, true) -> ihK = None.
Proof.
  destruct ihK as [K|]; [|done]. intros [? _]%FindDeepest_Some. done.
Qed.

Lemma FindDeepest_trie_eq c c' P :
  accountTrie c' = accountTrie c ->
  FindDeepestAccountTrie c' P = FindDeepestAccountTrie c P.
Proof. unfold FindDeepestAccountTrie. by intros ->. Qed.

Lemma FindDeepest_MarkLoaded c K P :
  FindDeepestAccountTrie (MarkAccountTrieAsLoaded K c) P
  = match FindDeepestAccountTrie c P with
    | (Some k, hs, ld, m) => (Some k, hs, if decide (K = k) then true else ld, m)
    | other => other
    end.
Proof.
  unfold FindDeepestAccountTrie, MarkAccountTrieAsLoaded. simpl.
  rewrite deepestNode_alter.
  destruct (deepestNode _ P _) as [[k d]|]; simpl; [|done].
  case_decide; done.
Qed.

(** What the search stage leaves: only the index may change, the only store
    access is at most one scan of the trie-node bucket, and the result is
    what the index now answers. *)
Lemma searchAccountTrie_post r P c s cw t0 :
  searchAccountTrie UnmarshalTrieNodeTyped r P c = (s, cw, t0) ->
  sameButTrie c cw /\ accountScans t0 = 0%nat /\
  (forall ev, ev ∈ t0 -> isTrieScan ev = true) /\
  match s with
  | Ok found => FindDeepestAccountTrie cw P = found
  | Err _ => True
  end.
Proof.
  intros Hs.
  destruct (searchAccountTrie_cases r P c)
    as [(ihK & hs & ld & Hfind & Heq) | (ihK & hs & ld & es & tail & Hfind & Hwalk & Heq)];
    rewrite Heq in Hs; inversion Hs; subst; clear Hs.
  - split; [repeat split|]. split; [done|]. split; [by intros ev ?%elem_of_nil|]. done.
  - split; [apply warmTrie_sameButTrie|]. split; [done|].
    split; [by intros ev ->%list_elem_of_singleton|]. by destruct tail.
Qed.

Lemma warmTrie_inserted entries c kv :
  kv ∈ entries -> is_Some (accountTrie (warmIdx entries c) !! kv.1).
Proof.
  revert c. induction entries as [|[k v] rest IH] using rev_ind; [by intros c ?%elem_of_nil|].
  intros c Hin. unfold warmTrie. rewrite fold_left_app. simpl.
  unfold trieWalker at 1. destruct (UnmarshalTrieNodeTyped v) as [[[hs ht] hh] nv]. simpl.
  destruct (decide (kv.1 = k)) as [->|Hne].
  - rewrite lookup_insert_eq. eauto.
  - rewrite lookup_insert_ne by done.
    apply elem_of_app in Hin as [Hin|Hin%list_elem_of_singleton]; [by apply IH|].
    subst kv. done.
Qed.

Lemma readBySearchResult_no_trie_scan r A hashed ihK hs ld c res c' t :
  readBySearchResult sha DecodeForStorage r A hashed ihK hs ld c = (res, c', t) ->
  trieScans t = 0%nat /\ (accountScans t <= 1)%nat.
Proof.
  intros Hr.
  destruct (readBySearchResult_cases r A hashed ihK hs ld c)
    as [(-> & Heq) | [(K & -> & _ & Heq)
       | (K & es & tail & err & found & a & cs & -> & -> & -> & _ & _ & Heq)]];
    rewrite Heq in Hr; [rewrite readThrough_eq in Hr|..].
  - destruct (readAccountData r A) as [[?|]|?]; inversion Hr; subst;
      (split; [done|unfold accountScans; simpl; lia]).
  - inversion Hr; subst; split; [done|unfold accountScans; simpl; lia].
  - inversion Hr; subst; split; [done|unfold accountScans; simpl; lia].
Qed.

Lemma accountScans_app t1 t2 :
  accountScans (t1 ++ t2) = (accountScans t1 + accountScans t2)%nat.
Proof. unfold accountScans. by rewrite filter_app, length_app. Qed.

Lemma accountScans_trie_only t :
  (forall ev, ev ∈ t -> isTrieScan ev = true) -> accountScans t = 0%nat.
Proof.
  induction t as [|ev t IH]; intros Hall; [done|].
  unfold accountScans in *. rewrite filter_cons.
  assert (isTrieScan ev = true) as Hev by (apply Hall; left).
  destruct ev as [| | | |[] ? ?]; try done. simpl.
  apply IH. intros ev' Hin. apply Hall. by right.
Qed.

Lemma accountScans_pos t :
  accountScans t <> 0%nat -> exists start bits, WalkBucket HashedAccountsBucket start bits ∈ t.
Proof.
  induction t as [|ev t IH]; [done|]. unfold accountScans in *. rewrite filter_cons.
  destruct ev as [| | | |[] start bits]; simpl; intros Hpos;
    try (destruct (IH Hpos) as (s' & b' & Hin); exists s', b'; by right).
  exists start, bits. left.
Qed.

(** The path through the account scan, recovered from the trace. *)
Lemma ReadAccountData_scan_inv r A c res c' tr start bits :
  RAD r A c = (res, c', tr) ->
  WalkBucket HashedAccountsBucket start bits ∈ tr ->
  exists cw K es tail err found a cs,
    getAccount c A = None /\ sameButTrie c cw /\
    FindDeepestAccountTrie cw (pathOf A) = (Some K, true, false, false) /\
    start = accountScanKey K /\ bits = accountScanBits K /\
    dbWalk r HashedAccountsBucket start bits = (es, tail) /\
    walkLoop (scanWalker (hashOf A)) es tail (false, None) cw = (err, (found, a), cs) /\
    accountScans tr = 1%nat /\
    res = match err with Some e => Err e | None => Ok a end /\
    c' = match err with
         | Some _ => cs
         | None => MarkAccountTrieAsLoaded K (if found then cs else setAbsent A cs)
         end.
Proof.
  intros Hrun Hin.
  destruct (getAccount c A) as [x|] eqn:Hhit.
  { rewrite (ReadAccountData_hit r A c x Hhit) in Hrun. inversion Hrun; subst.
    by apply elem_of_nil in Hin. }
  rewrite (ReadAccountData_miss r A c Hhit) in Hrun.
  destruct (searchAccountTrie UnmarshalTrieNodeTyped r (pathOf A) c) as [[s cw] t0] eqn:Hs.
  apply searchAccountTrie_post in Hs as (Hsame & _ & Htrie & Hs).
  pose proof (accountScans_trie_only t0 Htrie) as Hcount.
  destruct s as [[[[ihK hs] ld] m]|e].
  2:{ inversion Hrun; subst. rewrite app_nil_r in Hin. by apply Htrie in Hin. }
  destruct (readBySearchResult sha DecodeForStorage r A (hashOf A) ihK hs ld cw)
    as [[res1 c1] t1] eqn:Hr.
  inversion Hrun; subst; clear Hrun.
  apply elem_of_app in Hin as [Hin|Hin]; [by apply Htrie in Hin|].
  destruct (readBySearchResult_cases r A (hashOf A) ihK hs ld cw)
    as [(-> & Heq) | [(K & -> & _ & Heq)
       | (K & es & tail & err & found & a & cs & -> & -> & -> & Hwalk & Hloop & Heq)]];
    rewrite Heq in Hr; [rewrite readThrough_eq in Hr|..].
  - destruct (readAccountData r A) as [[?|]|?]; inversion Hr; subst;
      by apply list_elem_of_singleton in Hin.
  - inversion Hr; subst. by apply elem_of_nil in Hin.
  - inversion Hr; subst; clear Hr.
    apply list_elem_of_singleton in Hin. injection Hin as -> ->.
    destruct (FindDeepest_Some _ _ _ _ _ _ Hs) as (-> & _).
    exists cw, K, es, tail, err, found, a, cs.
    repeat (split; [done|]). split; [|done].
    rewrite accountScans_app, Hcount. done.
Qed.


(** What follows the search never drops a node from the index. *)
Lemma readBySearchResult_trie_kept r A hashed ihK hs ld c res c' t k :
  readBySearchResult sha DecodeForStorage r A hashed ihK hs ld c = (res, c', t) ->
  is_Some (accountTrie c !! k) -> is_Some (accountTrie c' !! k).
Proof.
  intros Hr Hk.
  destruct (readBySearchResult_cases r A hashed ihK hs ld c)
    as [(-> & Heq) | [(K & -> & _ & Heq)
       | (K & es & tail & err & found & a & cs & -> & -> & -> & _ & Hloop & Heq)]];
    rewrite Heq in Hr; [rewrite readThrough_eq in Hr|..].
  - destruct (readAccountData r A) as [[?|]|?]; by inversion Hr; subst.
  - by inversion Hr; subst.
  - inversion Hr; subst; clear Hr.
    destruct (scan_loop _ _ _ _ _ _ _ _ Hloop) as (_ & (_ & _ & _ & Htrie) & _).
    destruct err as [e|]; [by rewrite Htrie|].
    simpl. rewrite lookup_alter.
    assert (accountTrie (if found then cs else setAbsent A cs) = accountTrie c) as ->
      by (by destruct found).
    case_decide as HK; [subst k|done].
    destruct Hk as [d ->]. simpl. eauto.
Qed.

(** *** The branches of [ReadAccountData] *)

Lemma ReadAccountData_absent_branch r A c K hs ld :
  getAccount c A = None ->
  FindDeepestAccountTrie c (pathOf A) = (Some K, hs, ld, false) ->
  hs = false \/ ld = true ->
  RAD r A c = (Ok None, setAbsent A c, []).
Proof.
  intros Hmiss Hfind Hflags.
  rewrite (ReadAccountData_miss r A c Hmiss).
  destruct (searchAccountTrie_cases r (pathOf A) c)
    as [(ihK & hs' & ld' & Hfind' & ->) | (ihK & hs' & ld' & es & tail & Hfind' & _)];
    rewrite Hfind in Hfind'; [|done].
  injection Hfind' as <- <- <-.
  destruct (readBySearchResult_cases r A (hashOf A) (Some K) hs ld c)
    as [(? & _) | [(K' & _ & _ & ->)
       | (K' & es & tail & err & found & a & cs & _ & -> & -> & _)]]; [done|done|].
  destruct Hflags; done.
Qed.

(** C3, as amended.  A direct miss whose deepest-prefix match has no state,
    or is already loaded, marks the address Absent and returns Absent, with no
    point lookup and no account scan: with no Backing Store access at all
    when the first search matches, and with the one scan of the trie-node
    bucket when the match is found only after that scan. *)
Theorem ReadAccountData_known_empty r A c K hs ld :
  getAccount c A = None ->
  hs = false \/ ld = true ->
  (FindDeepestAccountTrie c (pathOf A) = (Some K, hs, ld, false) ->
   RAD r A c = (Ok None, setAbsent A c, [])) /\
  (forall es,
     deepestPrefix c (pathOf A) = None ->
     dbWalk r TrieOfAccountsBucket [] 0 = (es, None) ->
     FindDeepestAccountTrie (warmIdx es c) (pathOf A) = (Some K, hs, ld, false) ->
     RAD r A c
     = (Ok None, setAbsent A (warmIdx es c), [WalkBucket TrieOfAccountsBucket [] 0])) /\
  (forall c0, getAccount (setAbsent A c0) A = Some None).
Proof.
  intros Hmiss Hflags. split; [|split].
  - intros Hfind. by eapply ReadAccountData_absent_branch.
  - intros es Hnone Hwalk Hfind.
    rewrite (ReadAccountData_miss r A c Hmiss).
    unfold deepestPrefix in Hnone.
    destruct (FindDeepestAccountTrie c (pathOf A)) as [[[ihK0 hs0] ld0] m0] eqn:Hfind0.
    simpl in Hnone. subst ihK0.
    destruct (FindDeepest_None _ _ _ _ _ Hfind0) as (-> & -> & ->).
    destruct (searchAccountTrie_cases r (pathOf A) c)
      as [(ihK & hs' & ld' & Hfind' & _) | (ihK & hs' & ld' & es' & tail & Hfind' & Hwalk' & ->)];
      rewrite Hfind0 in Hfind'; [done|].
    injection Hfind' as <- <- <-.
    change (dbWalk r TrieOfAccountsBucket [] 0 = (es', tail)) in Hwalk'.
    rewrite Hwalk in Hwalk'. injection Hwalk' as <- <-. rewrite Hfind.
    destruct (readBySearchResult_cases r A (hashOf A) (Some K) hs ld (warmIdx es c))
      as [(? & _) | [(K' & _ & _ & ->)
         | (K' & es' & tail & err & found & a & cs & _ & -> & -> & _)]]; [done|done|].
    destruct Hflags; done.
  - intros c0. unfold GetAccount, SetAccountAbsent. simpl. apply lookup_insert_eq.
Qed.

(** C8.  With no prefix match even after the trie-node scan, the call makes
    one point lookup of the address, returns its result, caches it as
    Present or Absent, and changes nothing else: the index is the one the
    scan left, and every other account record is untouched. *)
Theorem ReadAccountData_no_prefix_fallback r A c es :
  getAccount c A = None ->
  deepestPrefix c (pathOf A) = None ->
  dbWalk r TrieOfAccountsBucket [] 0 = (es, None) ->
  deepestPrefix (warmIdx es c) (pathOf A) = None ->
  exists c',
    RAD r A c = (readAccountData r A, c',
                 [WalkBucket TrieOfAccountsBucket [] 0; GetAccountData A]) /\
    sameButAccounts (warmIdx es c) c' /\
    (forall h, h <> hashOf A -> accounts c' !! h = accounts c !! h) /\
    match readAccountData r A with
    | Ok (Some a) => getAccount c' A = Some (Some a)
    | Ok None => getAccount c' A = Some None
    | Err _ => c' = warmIdx es c
    end.
Proof.
  intros Hmiss Hnone Hwalk Hnone'.
  rewrite (ReadAccountData_miss r A c Hmiss).
  unfold deepestPrefix in Hnone, Hnone'.
  destruct (FindDeepestAccountTrie c (pathOf A)) as [[[ihK0 hs0] ld0] m0] eqn:Hfind0.
  simpl in Hnone. subst ihK0.
  destruct (FindDeepest_None _ _ _ _ _ Hfind0) as (-> & -> & ->).
  destruct (FindDeepestAccountTrie (warmIdx es c) (pathOf A)) as [[[ihK1 hs1] ld1] m1] eqn:Hfind1.
  simpl in Hnone'. subst ihK1.
  destruct (searchAccountTrie_cases r (pathOf A) c)
    as [(ihK & hs' & ld' & Hfind' & _) | (ihK & hs' & ld' & es' & tail & Hfind' & Hwalk' & ->)];
    rewrite Hfind0 in Hfind'; [done|].
  injection Hfind' as <- <- <-.
  change (dbWalk r TrieOfAccountsBucket [] 0 = (es', tail)) in Hwalk'.
  rewrite Hwalk in Hwalk'. injection Hwalk' as <- <-. rewrite Hfind1.
  destruct (readBySearchResult_cases r A (hashOf A) None hs1 ld1 (warmIdx es c))
    as [(_ & ->) | [(K & ? & _) | (K & ? & ? & ? & ? & ? & ? & ? & _)]]; [|done|done].
  rewrite readThrough_eq.
  destruct (warmTrie_sameButTrie es c) as (Hacc & _).
  destruct (readAccountData r A) as [[a|]|e]; simpl; eexists; (split; [reflexivity|]).
  - split; [repeat split|]. split; [|apply lookup_insert_eq].
    intros h Hne. simpl. rewrite lookup_insert_ne by done. by rewrite Hacc.
  - split; [repeat split|]. split; [|apply lookup_insert_eq].
    intros h Hne. simpl. rewrite lookup_insert_ne by done. by rewrite Hacc.
  - split; [repeat split|]. split; [|done]. intros h _. by rewrite Hacc.
Qed.

(** C2, as amended.  On a trie miss the call scans the trie-node bucket
    once, from the prefix the failed search returned -- none, so from the
    empty key with no bit fixed, whatever the path -- and inserts every
    visited node; a store error ends the call, otherwise the search is
    repeated once on the warmed index and the call goes on with that
    answer, without another scan of the trie-node bucket. *)
Theorem ReadAccountData_trie_miss r A c ihK hs ld es tail :
  getAccount c A = None ->
  FindDeepestAccountTrie c (pathOf A) = (ihK, hs, ld, true) ->
  dbWalk r TrieOfAccountsBucket (sliceOf ihK) (Z.of_nat (length (sliceOf ihK)) * 8)
  = (es, tail) ->
  sliceOf ihK = [] /\
  (forall kv, kv ∈ es -> is_Some (accountTrie (warmIdx es c) !! kv.1)) /\
  exists res c' rest,
    RAD r A c = (res, c', WalkBucket TrieOfAccountsBucket [] 0 :: rest) /\
    trieScans rest = 0%nat /\
    (forall kv, kv ∈ es -> is_Some (accountTrie c' !! kv.1)) /\
    match tail with
    | Some e => res = Err e /\ c' = warmIdx es c /\ rest = []
    | None =>
        let '(ihK', hs', ld', _) := FindDeepestAccountTrie (warmIdx es c) (pathOf A) in
        readBySearchResult sha DecodeForStorage r A (hashOf A) ihK' hs' ld' (warmIdx es c)
        = (res, c', rest)
    end.
Proof.
  intros Hmiss Hfind Hwalk.
  pose proof (FindDeepest_miss _ _ _ _ _ Hfind) as ->.
  change (dbWalk r TrieOfAccountsBucket [] 0 = (es, tail)) in Hwalk.
  split; [done|]. split; [intros kv; apply warmTrie_inserted|].
  rewrite (ReadAccountData_miss r A c Hmiss).
  destruct (searchAccountTrie_cases r (pathOf A) c)
    as [(ihK & hs' & ld' & Hfind' & _) | (ihK & hs' & ld' & es' & tail' & Hfind' & Hwalk' & ->)];
    rewrite Hfind in Hfind'; [done|].
  injection Hfind' as <- <- <-.
  change (dbWalk r TrieOfAccountsBucket [] 0 = (es', tail')) in Hwalk'.
  rewrite Hwalk in Hwalk'. injection Hwalk' as <- <-.
  change (sliceOf None) with (@nil N).
  change (Z.of_nat (length (@nil N)) * 8)%Z with 0%Z.
  destruct tail as [e|]; simpl.
  - eexists _, _, _. split; [reflexivity|]. split; [done|].
    split; [intros kv; apply warmTrie_inserted|done].
  - destruct (FindDeepestAccountTrie (warmIdx es c) (pathOf A)) as [[[ihK' hs'] ld'] m'].
    destruct (readBySearchResult sha DecodeForStorage r A (hashOf A) ihK' hs' ld' (warmIdx es c))
      as [[res c'] rest] eqn:Hrest.
    eexists _, _, _. split; [reflexivity|].
    split; [by destruct (readBySearchResult_no_trie_scan _ _ _ _ _ _ _ _ _ _ Hrest)|].
    split; [|done]. intros kv Hkv.
    apply (readBySearchResult_trie_kept _ _ _ _ _ _ _ _ _ _ _ Hrest).
    by apply warmTrie_inserted.
Qed.

(** *** What every call keeps *)

Lemma scanInv_init hashed c : accounts c !! hashed = None -> scanInv hashed (false, None) c.
Proof. intros Hnone. split; [by left|done]. Qed.

Lemma readBySearchResult_post r A ihK hs ld c res c' t :
  accounts c !! hashOf A = None ->
  readBySearchResult sha DecodeForStorage r A (hashOf A) ihK hs ld c = (res, c', t) ->
  (forall h x, accounts c !! h = Some x -> accounts c' !! h = Some x) /\
  (res = Ok None -> accounts c' !! hashOf A = Some None).
Proof.
  intros Hnone Hr.
  assert (forall v h x, accounts c !! h = Some x ->
            <[hashOf A := v]> (accounts c) !! h = Some x) as Hins.
  { intros v h x Hx. rewrite lookup_insert_ne; [done|]. intros <-. by rewrite Hnone in Hx. }
  destruct (readBySearchResult_cases r A (hashOf A) ihK hs ld c)
    as [(-> & Heq) | [(K & -> & _ & Heq)
       | (K & es & tail & err & found & a & cs & -> & -> & -> & Hwalk & Hloop & Heq)]];
    rewrite Heq in Hr; [rewrite readThrough_eq in Hr|..].
  - destruct (readAccountData r A) as [[acc|]|e]; inversion Hr; subst; simpl;
      (split; [by auto|]); try done.
    intros _. apply lookup_insert_eq.
  - inversion Hr; subst; simpl. split; [by auto|]. intros _. apply lookup_insert_eq.
  - inversion Hr; subst; clear Hr.
    destruct (scan_loop _ _ _ _ _ _ _ _ Hloop) as (Hext & _ & _ & _ & Hinv).
    specialize (Hinv (hashAddress_length A) (scanInv_init _ _ Hnone)).
    assert (forall h x, accounts c !! h = Some x -> accounts cs !! h = Some x) as Hkept.
    { intros h x Hx. specialize (Hext h). by rewrite Hx in Hext. }
    destruct err as [e|]; [split; [done|done]|].
    destruct found; simpl.
    + split; [done|]. intros [= ->]. destruct Hinv as [_ Hfound].
      destruct (Hfound eq_refl) as (acc & ? & _). done.
    + split; [|intros _; apply lookup_insert_eq].
      intros h x Hx. rewrite lookup_insert_ne; [by apply Hkept|].
      intros <-. by rewrite Hnone in Hx.
Qed.

Lemma ReadAccountData_post r A c res c' tr :
  RAD r A c = (res, c', tr) ->
  (forall h x, accounts c !! h = Some x -> accounts c' !! h = Some x) /\
  (res = Ok None -> getAccount c' A = Some None).
Proof.
  intros Hrun. destruct (getAccount c A) as [x|] eqn:Hhit.
  { rewrite (ReadAccountData_hit r A c x Hhit) in Hrun. inversion Hrun; subst.
    split; [done|]. by intros [= ->]. }
  rewrite (ReadAccountData_miss r A c Hhit) in Hrun.
  destruct (searchAccountTrie UnmarshalTrieNodeTyped r (pathOf A) c) as [[s cw] t0] eqn:Hs.
  apply searchAccountTrie_post in Hs as ((Hacc & _) & _).
  destruct s as [[[[ihK hs] ld] m]|e].
  2:{ inversion Hrun; subst. split; [|done]. intros h x. by rewrite Hacc. }
  destruct (readBySearchResult sha DecodeForStorage r A (hashOf A) ihK hs ld cw)
    as [[res1 c1] t1] eqn:Hr.
  inversion Hrun; subst; clear Hrun.
  unfold GetAccount in Hhit. rewrite <- Hacc in Hhit.
  destruct (readBySearchResult_post _ _ _ _ _ _ _ _ _ Hhit Hr) as [Hkept Habs].
  split; [|done]. intros h x. rewrite <- Hacc. apply Hkept.
Qed.

Lemma cacheAfterReads_kept r others c h x :
  accounts c !! h = Some x ->
  accounts (cacheAfterReads sha DecodeForStorage UnmarshalTrieNodeTyped r others c) !! h
  = Some x.
Proof.
  revert c. induction others as [|B rest IH]; intros c Hx; [done|].
  unfold cacheAfterReads. simpl.
  destruct (RAD r B c) as [[res c'] tr] eqn:Hrun. simpl.
  apply IH. by apply (ReadAccountData_post _ _ _ _ _ _ Hrun).
Qed.

(** C6.  Once a call has returned Absent for an address, every later call
    for it on the same cache -- whatever other reads happened in between --
    returns Absent from the cache, without any Backing Store access. *)
Theorem ReadAccountData_absence_stable r A c c1 t1 others :
  RAD r A c = (Ok None, c1, t1) ->
  let c2 := cacheAfterReads sha DecodeForStorage UnmarshalTrieNodeTyped r others c1 in
  RAD r A c2 = (Ok None, c2, []).
Proof.
  intros Hrun c2. apply ReadAccountData_hit. unfold GetAccount.
  apply cacheAfterReads_kept.
  by apply (ReadAccountData_post _ _ _ _ _ _ Hrun).
Qed.

(** *** The account scan inside a call *)

(** The index a successful scanning call leaves answers the target path
    with the matched prefix, now loaded. *)
Lemma scanned_prefix_loaded A cw K found cs :
  FindDeepestAccountTrie cw (pathOf A) = (Some K, true, false, false) ->
  sameButAccounts cw cs ->
  FindDeepestAccountTrie
    (MarkAccountTrieAsLoaded K (if found : bool then cs else setAbsent A cs)) (pathOf A)
  = (Some K, true, true, false).
Proof.
  intros Hfind (_ & _ & _ & Htrie).
  rewrite FindDeepest_MarkLoaded.
  rewrite (FindDeepest_trie_eq cw); [|by destruct found].
  rewrite Hfind. by rewrite decide_True.
Qed.


(** A scan that comes to its end visited the first entry of each hashed
    address while that address was still Unknown. *)
Lemma scan_materialises hashed pre k v post tail l c l' c' acc :
  walkLoop (scanWalker hashed) (pre ++ (k, v) :: post) tail l c = (None, l', c') ->
  accounts c !! BytesToHash k = None ->
  (forall kv, kv ∈ pre -> BytesToHash kv.1 <> BytesToHash k) ->
  DecodeForStorage v = Ok acc ->
  accounts c' !! BytesToHash k = Some (Some acc).
Proof.
  revert l c. induction pre as [|[k0 v0] pre IH]; intros l c Hloop Hnone Hfresh Hdec;
    simpl in Hloop.
  - destruct (accountWalker_cases hashed k v l c)
      as [(x & Hc & _) | [(_ & e & Hd & _) | (_ & acc' & Hd & Hw)]]; [congruence..|].
    rewrite Hw in Hloop. rewrite Hdec in Hd. injection Hd as <-.
    destruct (scan_loop _ _ _ _ _ _ _ _ Hloop) as (Hext & _).
    specialize (Hext (BytesToHash k)). simpl in Hext.
    by rewrite lookup_insert_eq in Hext.
  - destruct (scanWalker hashed k0 v0 l c) as [[[goOn e] l1] c1] eqn:Hw.
    destruct (accountWalker_step _ _ _ _ _ _ _ _ _ Hw) as (_ & _ & Hframe & Hgo & _).
    destruct e as [e|]; [done|]. destruct (Hgo eq_refl) as (-> & _).
    apply (IH _ _ Hloop); [|intros kv Hin; apply Hfresh; by right|done].
    rewrite Hframe; [done|]. intros Heq. apply (Hfresh (k0, v0)); [left|done].
Qed.

(** C1.  After a call whose warming scan came to its end, every address
    whose record the scan materialised -- the scan yielded an entry under
    its hashed address, the address was Unknown before, and the entry
    decodes -- is answered as that Present account by any later call on the
    same cache, from the cache alone and never as Absent. *)
Theorem ReadAccountData_warmed_present r A B c res c1 tr start bits pre v post tail acc
    others :
  RAD r A c = (Ok res, c1, tr) ->
  WalkBucket HashedAccountsBucket start bits ∈ tr ->
  dbWalk r HashedAccountsBucket start bits = (pre ++ (hashOf B, v) :: post, tail) ->
  (forall kv, kv ∈ pre -> BytesToHash kv.1 <> hashOf B) ->
  getAccount c B = None ->
  DecodeForStorage v = Ok acc ->
  let c2 := cacheAfterReads sha DecodeForStorage UnmarshalTrieNodeTyped r others c1 in
  RAD r B c2 = (Ok (Some acc), c2, []).
Proof.
  intros Hrun Hin Hwalk Hfresh Hunknown Hdec c2. subst c2.
  destruct (ReadAccountData_scan_inv _ _ _ _ _ _ _ _ Hrun Hin)
    as (cw & K & es & tail' & err & found & a & cs & _ & (Hacc & _) & _ & _ & _
        & Hwalk' & Hloop & _ & Hres & ->).
  rewrite Hwalk in Hwalk'. injection Hwalk' as <- <-.
  destruct err as [e|]; [done|].
  unfold GetAccount in Hunknown. rewrite <- Hacc in Hunknown.
  rewrite <- (BytesToHash_hashAddress B) in Hunknown, Hfresh.
  pose proof (scan_materialises _ _ _ _ _ _ _ _ _ _ _ Hloop Hunknown Hfresh Hdec) as Hrec.
  rewrite BytesToHash_hashAddress in Hrec.
  apply ReadAccountData_hit. unfold GetAccount. apply cacheAfterReads_kept. simpl.
  destruct found eqn:Hfound; [done|]. simpl.
  rewrite lookup_insert_ne; [done|]. intros Heq.
  destruct (scan_loop _ _ _ _ _ _ _ _ Hloop) as (_ & _ & _ & Hok & _).
  destruct (Hok eq_refl) as (_ & _ & Hfind).
  enough (found = true) by congruence. subst found.
  apply (Hfind). right. simpl. rewrite Heq, fmap_app, fmap_cons. simpl.
  apply elem_of_app. right. left.
Qed.

(** Entries that decode never stop the scan. *)
Lemma scan_decodable_prefix hashed pre l c :
  (forall kv, kv ∈ pre -> exists acc, DecodeForStorage kv.2 = Ok acc) ->
  exists l1 c1,
    walkLoop (scanWalker hashed) pre None l c = (None, l1, c1) /\
    forall rest tail,
      walkLoop (scanWalker hashed) (pre ++ rest) tail l c
      = walkLoop (scanWalker hashed) rest tail l1 c1.
Proof.
  revert l c. induction pre as [|[k0 v0] pre IH]; intros l c Hdec.
  - exists l, c. done.
  - assert (forall kv, kv ∈ pre -> exists acc, DecodeForStorage kv.2 = Ok acc) as Hdec'
      by (intros kv Hin; apply Hdec; by right).
    destruct (Hdec (k0, v0)) as [acc0 Hd0]; [left|]. simpl in Hd0.
    destruct (accountWalker_cases hashed k0 v0 l c)
      as [(x & _ & Hw) | [(_ & e & Hd & _) | (_ & acc' & _ & Hw)]]; [|congruence|];
      simpl; rewrite Hw; apply IH, Hdec'.
Qed.

(** C4.  When the account scan fails mid-way -- the store fails after some
    entries, or an entry that has to be decoded does not decode -- the call
    returns that error, the matched prefix is still reported as not loaded,
    the target is not marked Absent, and the entries decoded before the
    failure are cached as Present. *)
Theorem ReadAccountData_scan_failure r A c res c' tr start bits pre rest tail e :
  RAD r A c = (res, c', tr) ->
  WalkBucket HashedAccountsBucket start bits ∈ tr ->
  dbWalk r HashedAccountsBucket start bits = (pre ++ rest, tail) ->
  (forall kv, kv ∈ pre -> exists acc, DecodeForStorage kv.2 = Ok acc) ->
  (rest = [] /\ tail = Some e) \/
  (exists k v post, rest = (k, v) :: post /\ DecodeForStorage v = Err e /\
     accounts c !! BytesToHash k = None /\
     forall kv, kv ∈ pre -> BytesToHash kv.1 <> BytesToHash k) ->
  res = Err e /\
  (exists K, FindDeepestAccountTrie c' (pathOf A) = (Some K, true, false, false)) /\
  getAccount c' A <> Some None /\
  (forall kv, kv ∈ pre -> accounts c !! BytesToHash kv.1 = None ->
     exists acc, accounts c' !! BytesToHash kv.1 = Some (Some acc)).
Proof.
  intros Hrun Hin Hwalk Hdec Hfail.
  destruct (ReadAccountData_scan_inv _ _ _ _ _ _ _ _ Hrun Hin)
    as (cw & K & es & tail' & err & found & a & cs & Hmiss & (Hacc & _) & Hfind & _ & _
        & Hwalk' & Hloop & _ & -> & ->).
  rewrite Hwalk in Hwalk'. injection Hwalk' as <- <-.
  destruct (scan_decodable_prefix (hashOf A) pre (false, None) cw Hdec)
    as (l1 & c1 & Hpre & Hrest).
  destruct (scan_loop _ _ _ _ _ _ _ _ Hpre) as (Hext & Hsame & Hframe & Hok & Hinv).
  destruct (Hok eq_refl) as (_ & Hcached & _).
  unfold GetAccount in Hmiss. rewrite <- Hacc in Hmiss.
  specialize (Hinv (hashAddress_length A) (scanInv_init _ _ Hmiss)).
  assert (err = Some e /\ cs = c1) as [-> ->].
  { rewrite Hrest in Hloop.
    destruct Hfail as [(-> & ->) | (k & v & post & -> & Hd & Hnone & Hfresh)].
    - simpl in Hloop. by inversion Hloop.
    - simpl in Hloop.
      destruct (accountWalker_cases (hashOf A) k v l1 c1)
        as [(x & Hc & _) | [(_ & e' & Hd' & Hw) | (_ & acc' & Hd' & _)]]; [|..|congruence].
      + rewrite Hframe, Hacc, Hnone in Hc; [done|]. intros kv Hkv Heq.
        by apply (Hfresh kv Hkv).
      + rewrite Hw in Hloop. rewrite Hd in Hd'. injection Hd' as <-. by inversion Hloop. }
  split; [done|]. split; [|split].
  - exists K. rewrite (FindDeepest_trie_eq cw); [done|]. apply Hsame.
  - unfold GetAccount. destruct Hinv as [[Hrec|[acc Hrec]] _]; by rewrite Hrec.
  - intros kv Hkv Hnone. destruct (Hcached kv Hkv) as [x Hx].
    specialize (Hext (BytesToHash kv.1)). rewrite Hacc, Hnone in Hext.
    destruct Hext as [Hext|Hext]; [congruence|done].
Qed.

(** C10.  The walker of the account scan asks to continue after every entry
    it processes without error, whether or not the target has been found
    already; so a call that scanned and succeeded walked the whole range the
    store yielded before it marked the prefix loaded, and a call whose scan
    failed left the prefix not loaded. *)
Theorem accountWalker_never_stops :
  (forall hashed k v l c goOn l' c',
     scanWalker hashed k v l c = (goOn, None, l', c') -> goOn = true) /\
  (forall r A c res c' tr start bits es tail,
     RAD r A c = (res, c', tr) ->
     WalkBucket HashedAccountsBucket start bits ∈ tr ->
     dbWalk r HashedAccountsBucket start bits = (es, tail) ->
     match res with
     | Ok _ =>
         tail = None /\
         (forall kv, kv ∈ es -> is_Some (accounts c' !! BytesToHash kv.1)) /\
         exists K, FindDeepestAccountTrie c' (pathOf A) = (Some K, true, true, false)
     | Err _ =>
         exists K, FindDeepestAccountTrie c' (pathOf A) = (Some K, true, false, false)
     end).
Proof.
  split.
  - intros hashed k v l c goOn l' c' Hw.
    destruct (accountWalker_step _ _ _ _ _ _ _ _ _ Hw) as (_ & _ & _ & Hgo & _).
    by destruct (Hgo eq_refl).
  - intros r A c res c' tr start bits es tail Hrun Hin Hwalk.
    destruct (ReadAccountData_scan_inv _ _ _ _ _ _ _ _ Hrun Hin)
      as (cw & K & es' & tail' & err & found & a & cs & _ & _ & Hfind & _ & _
          & Hwalk' & Hloop & _ & -> & ->).
    rewrite Hwalk in Hwalk'. injection Hwalk' as <- <-.
    destruct (scan_loop _ _ _ _ _ _ _ _ Hloop) as (_ & Hsame & _ & Hok & _).
    destruct err as [e|].
    + exists K. rewrite (FindDeepest_trie_eq cw); [done|]. apply Hsame.
    + destruct (Hok eq_refl) as (-> & Hcached & _).
      split; [done|]. split; [|exists K; by apply (scanned_prefix_loaded A cw)].
      intros kv Hkv. specialize (Hcached kv Hkv). simpl.
      destruct found; [done|]. simpl.
      destruct (decide (hashOf A = BytesToHash kv.1)) as [<-|Hne].
      * rewrite lookup_insert_eq. eauto.
      * by rewrite lookup_insert_ne.
Qed.

(** *** Storage and code *)

(** C7.  A value cached under incarnation [i] does not answer a read for
    another incarnation [j]: the lookup for [j] sees what it saw before, and
    when that is Unknown the read makes one point lookup and returns what
    the store gives. *)
Theorem ReadAccountStorage_incarnation_scoped r c A i j key v :
  i <> j ->
  GetStorage (SetStorageRead A i key v c) A j key = GetStorage c A j key /\
  (GetStorage c A j key = None ->
   exists c',
     ReadAccountStorage r A j key (SetStorageRead A i key v c)
     = (readAccountStorage r A j key, c', [GetAccountStorage A j key])).
Proof.
  intros Hij.
  assert (GetStorage (SetStorageRead A i key v c) A j key = GetStorage c A j key) as Hget.
  { unfold GetStorage, SetStorageRead. simpl. apply lookup_insert_ne. congruence. }
  split; [done|]. intros Hnone.
  unfold ReadAccountStorage, bind, gets, access, modify, ret. rewrite Hget, Hnone.
  destruct (readAccountStorage r A j key) as [val|e]; [|by eexists].
  destruct (Nat.eqb (length val) 0); by eexists.
Qed.

(** C9.  A fetched code blob is cached exactly when it is at most 1024 bytes
    long: the repeated call is then a cache hit without store access; a
    longer blob leaves the cache as it was and the repeated call queries the
    store again. *)
Theorem ReadAccountCode_size_cutoff r c A inc codeHash code :
  codeHash <> emptyCodeHash ->
  GetCode c A inc = None ->
  readAccountCode r A inc codeHash = Ok code ->
  exists c1,
    ReadAccountCode emptyCodeHash r A inc codeHash c
    = (Ok code, c1, [GetAccountCode A inc codeHash]) /\
    ((length code <= 1024)%nat ->
       GetCode c1 A inc = Some code /\
       ReadAccountCode emptyCodeHash r A inc codeHash c1 = (Ok code, c1, [])) /\
    ((1024 < length code)%nat ->
       c1 = c /\
       ReadAccountCode emptyCodeHash r A inc codeHash c1
       = (Ok code, c1, [GetAccountCode A inc codeHash])).
Proof.
  intros Hhash Hmiss Hstore.
  unfold ReadAccountCode, bind, gets, access, modify, ret.
  rewrite bool_decide_eq_false_2 by done. rewrite Hmiss, Hstore.
  destruct (decide (length code <= 1024)%nat) as [Hle|Hgt]; simpl.
  - eexists. split; [reflexivity|]. split; [|lia]. intros _.
    unfold GetCode, SetCodeRead. rewrite decide_True by done. simpl.
    rewrite lookup_insert_eq. done.
  - exists c. split; [reflexivity|]. split; [lia|]. intros _. split; [done|].
    by rewrite Hmiss.
Qed.

End Properties.

(* ===================================================================== *)
(** ** The properties on the test double *)
(* ===================================================================== *)

(** The scenario of §8: the first read misses, warms the index from the
    trie-node bucket, scans the accounts under f0 and returns the record. *)
Example scenario_first_read :
  (Double.ReadAccountData Double.scenario Double.accF0A9 NewStateCache).1.1
  = Ok (Some (Double.account 5)) /\
  (Double.ReadAccountData Double.scenario Double.accF0A9 NewStateCache).2
  = [WalkBucket TrieOfAccountsBucket [] 0; WalkBucket HashedAccountsBucket [240] 8] /\
  FindDeepestAccountTrie Double.warmed (DecompressNibbles (Double.pad Double.accF0A9))
  = (Some [15; 0], true, true, false).
Proof. vm_compute. done. Qed.

(** ... and a second read under f0, of an address the store does not hold,
    is answered Absent without touching the store. *)
Example scenario_second_read :
  (Double.ReadAccountData Double.scenario Double.accF0C2 Double.warmed).1.1 = Ok None /\
  (Double.ReadAccountData Double.scenario Double.accF0C2 Double.warmed).2 = [].
Proof. vm_compute. done. Qed.

(** C3, as stated, fails: on an empty index the call for an address under
    f0 misses directly, finds the node f0 without state at the repeated
    search and returns Absent -- after a scan of the trie-node bucket. *)
Lemma known_empty_after_scan_counterexample :
  let out := Double.ReadAccountData Double.stateless Double.accF0A9 NewStateCache in
  GetAccount Double.sha NewStateCache Double.accF0A9 = None /\
  FindDeepestAccountTrie out.1.2 (DecompressNibbles (hashAddress Double.sha Double.accF0A9))
  = (Some [15; 0], false, false, false) /\
  out.1.1 = Ok None /\
  GetAccount Double.sha out.1.2 Double.accF0A9 = Some None /\
  out.2 = [WalkBucket TrieOfAccountsBucket [] 0] /\
  out.2 <> [].
Proof. vm_compute. repeat split; discriminate. Qed.

Lemma ReadAccountData_known_empty_witness :
  Double.ReadAccountData Double.scenario Double.accF0A9 Double.emptySubtree
  = (Ok None, SetAccountAbsent Double.sha Double.accF0A9 Double.emptySubtree, []) /\
  Double.ReadAccountData Double.stateless Double.accF0A9 NewStateCache
  = (Ok None,
     SetAccountAbsent Double.sha Double.accF0A9
       (warmTrie Double.UnmarshalTrieNodeTyped [([15; 0], [0; 0; 0])] NewStateCache),
     [WalkBucket TrieOfAccountsBucket [] 0]).
Proof.
  split.
  - apply (ReadAccountData_known_empty Double.sha Double.DecodeForStorage
             Double.UnmarshalTrieNodeTyped Double.scenario Double.accF0A9
             Double.emptySubtree [15; 0] false false).
    + vm_compute. reflexivity.
    + left. reflexivity.
    + vm_compute. reflexivity.
  - apply (ReadAccountData_known_empty Double.sha Double.DecodeForStorage
             Double.UnmarshalTrieNodeTyped Double.stateless Double.accF0A9
             NewStateCache [15; 0] false false).
    + vm_compute. reflexivity.
    + left. reflexivity.
    + vm_compute. reflexivity.
    + vm_compute. reflexivity.
    + vm_compute. reflexivity.
Defined.

Lemma ReadAccountData_no_prefix_fallback_witness :
  exists c',
    Double.ReadAccountData Double.unsummarised Double.accF0A9 NewStateCache
    = (readAccountData Double.unsummarised Double.accF0A9, c',
       [WalkBucket TrieOfAccountsBucket [] 0; GetAccountData Double.accF0A9]) /\
    sameButAccounts (warmTrie Double.UnmarshalTrieNodeTyped [] NewStateCache) c' /\
    (forall h, h <> hashAddress Double.sha Double.accF0A9 ->
               accounts c' !! h = accounts NewStateCache !! h) /\
    match readAccountData Double.unsummarised Double.accF0A9 with
    | Ok (Some a) => GetAccount Double.sha c' Double.accF0A9 = Some (Some a)
    | Ok None => GetAccount Double.sha c' Double.accF0A9 = Some None
    | Err _ => c' = warmTrie Double.UnmarshalTrieNodeTyped [] NewStateCache
    end.
Proof.
  apply (ReadAccountData_no_prefix_fallback Double.sha Double.DecodeForStorage
           Double.UnmarshalTrieNodeTyped Double.unsummarised Double.accF0A9
           NewStateCache []).
  - vm_compute. reflexivity.
  - vm_compute. reflexivity.
  - vm_compute. reflexivity.
  - vm_compute. reflexivity.
Defined.

(** C2, as stated, fails: on the trie miss of the scenario the scan of the
    trie-node bucket starts at the empty key, not at an encoding of the path
    of the address, be it packed to bytes or one nibble per byte. *)
Lemma trie_scan_start_counterexample :
  let P := DecompressNibbles (hashAddress Double.sha Double.accF0A9) in
  GetAccount Double.sha NewStateCache Double.accF0A9 = None /\
  (FindDeepestAccountTrie NewStateCache P).2 = true /\
  ~ exists start bits rest,
      (start = CompressNibbles P \/ start = P) /\
      (Double.ReadAccountData Double.scenario Double.accF0A9 NewStateCache).2
      = WalkBucket TrieOfAccountsBucket start bits :: rest.
Proof.
  split; [vm_compute; reflexivity|]. split; [vm_compute; reflexivity|].
  intros (start & bits & rest & Hstart & Htrace).
  vm_compute in Htrace. injection Htrace as <- _ _.
  destruct Hstart as [Hstart|Hstart]; vm_compute in Hstart; discriminate Hstart.
Qed.

Lemma ReadAccountData_trie_miss_witness :
  sliceOf None = [] /\
  (forall kv, kv ∈ [Double.nodeF0] ->
     is_Some (accountTrie (warmTrie Double.UnmarshalTrieNodeTyped [Double.nodeF0]
                             NewStateCache) !! kv.1)) /\
  exists res c' rest,
    Double.ReadAccountData Double.scenario Double.accF0A9 NewStateCache
    = (res, c', WalkBucket TrieOfAccountsBucket [] 0 :: rest) /\
    trieScans rest = 0%nat /\
    (forall kv, kv ∈ [Double.nodeF0] -> is_Some (accountTrie c' !! kv.1)) /\
    (let '(ihK', hs', ld', _) :=
       FindDeepestAccountTrie
         (warmTrie Double.UnmarshalTrieNodeTyped [Double.nodeF0] NewStateCache)
         (DecompressNibbles (hashAddress Double.sha Double.accF0A9)) in
     readBySearchResult Double.sha Double.DecodeForStorage Double.scenario Double.accF0A9
       (hashAddress Double.sha Double.accF0A9) ihK' hs' ld'
       (warmTrie Double.UnmarshalTrieNodeTyped [Double.nodeF0] NewStateCache)
     = (res, c', rest)).
Proof.
  apply (ReadAccountData_trie_miss Double.sha Double.DecodeForStorage
           Double.UnmarshalTrieNodeTyped Double.scenario Double.accF0A9
           NewStateCache None false false [Double.nodeF0] None).
  - vm_compute. reflexivity.
  - vm_compute. reflexivity.
  - vm_compute. reflexivity.
Defined.

Lemma ReadAccountData_absence_stable_witness :
  let c1 := (Double.ReadAccountData Double.scenario Double.accF0C2 NewStateCache).1.2 in
  let c2 := cacheAfterReads Double.sha Double.DecodeForStorage Double.UnmarshalTrieNodeTyped
              Double.scenario [Double.accF0A9; Double.accF0B1] c1 in
  Double.ReadAccountData Double.scenario Double.accF0C2 NewStateCache
  = (Ok None, c1, [WalkBucket TrieOfAccountsBucket [] 0;
                   WalkBucket HashedAccountsBucket [240] 8]) /\
  Double.ReadAccountData Double.scenario Double.accF0C2 c2 = (Ok None, c2, []).
Proof.
  intros c1 c2.
  assert (Double.ReadAccountData Double.scenario Double.accF0C2 NewStateCache
          = (Ok None, c1, [WalkBucket TrieOfAccountsBucket [] 0;
                           WalkBucket HashedAccountsBucket [240] 8])) as Hfirst
    by (vm_compute; reflexivity).
  split; [exact Hfirst|].
  exact (ReadAccountData_absence_stable Double.sha Double.DecodeForStorage
           Double.UnmarshalTrieNodeTyped Double.scenario Double.accF0C2 NewStateCache c1 _
           [Double.accF0A9; Double.accF0B1] Hfirst).
Defined.


Lemma ReadAccountData_warmed_present_witness :
  let c2 := cacheAfterReads Double.sha Double.DecodeForStorage Double.UnmarshalTrieNodeTyped
              Double.scenario [Double.accF0C2] Double.warmed in
  GetAccount Double.sha NewStateCache Double.accF0B1 = None /\
  Double.ReadAccountData Double.scenario Double.accF0B1 c2
  = (Ok (Some (Double.account 6)), c2, []).
Proof.
  intros c2. split; [vm_compute; reflexivity|].
  apply (ReadAccountData_warmed_present Double.sha Double.DecodeForStorage
           Double.UnmarshalTrieNodeTyped Double.scenario Double.accF0A9 Double.accF0B1
           NewStateCache (Some (Double.account 5)) Double.warmed
           [WalkBucket TrieOfAccountsBucket [] 0; WalkBucket HashedAccountsBucket [240] 8]
           [240] 8 [(Double.pad Double.accF0A9, [5])] [6] [] None (Double.account 6)
           [Double.accF0C2]).
  - vm_compute. reflexivity.
  - apply list_elem_of_In. simpl. right. left. reflexivity.
  - vm_compute. reflexivity.
  - intros kv Hkv. apply list_elem_of_In in Hkv. simpl in Hkv.
    destruct Hkv as [<-|[]]. vm_compute. discriminate.
  - vm_compute. reflexivity.
  - reflexivity.
Defined.

Lemma ReadAccountData_scan_failure_witness :
  let out := Double.ReadAccountData Double.corrupted Double.accF0C2 NewStateCache in
  out.1.1 = Err (DecodeError "malformed account") /\
  (exists K,
     FindDeepestAccountTrie out.1.2 (DecompressNibbles (hashAddress Double.sha Double.accF0C2))
     = (Some K, true, false, false)) /\
  GetAccount Double.sha out.1.2 Double.accF0C2 <> Some None /\
  (forall kv, kv ∈ [(Double.pad Double.accF0A9, [5])] ->
     accounts NewStateCache !! BytesToHash kv.1 = None ->
     exists acc, accounts out.1.2 !! BytesToHash kv.1 = Some (Some acc)).
Proof.
  intros out.
  assert (Double.ReadAccountData Double.corrupted Double.accF0C2 NewStateCache
          = (out.1.1, out.1.2,
             [WalkBucket TrieOfAccountsBucket [] 0; WalkBucket HashedAccountsBucket [240] 8]))
    as Hrun by (vm_compute; reflexivity).
  apply (ReadAccountData_scan_failure Double.sha Double.DecodeForStorage
           Double.UnmarshalTrieNodeTyped Double.corrupted Double.accF0C2 NewStateCache
           out.1.1 out.1.2 _ [240] 8 [(Double.pad Double.accF0A9, [5])]
           [(Double.pad Double.accF0B1, [6; 6])] None (DecodeError "malformed account") Hrun).
  - apply list_elem_of_In. simpl. right. left. reflexivity.
  - vm_compute. reflexivity.
  - intros kv Hkv. apply list_elem_of_In in Hkv. simpl in Hkv.
    destruct Hkv as [<-|[]]. exists (Double.account 5). reflexivity.
  - right. exists (Double.pad Double.accF0B1), [6; 6], [].
    split; [reflexivity|]. split; [reflexivity|]. split; [vm_compute; reflexivity|].
    intros kv Hkv. apply list_elem_of_In in Hkv. simpl in Hkv.
    destruct Hkv as [<-|[]]. vm_compute. discriminate.
Defined.

Lemma accountWalker_never_stops_witness :
  let out := accountWalker Double.DecodeForStorage (Double.pad Double.accF0A9)
               (Double.pad Double.accF0B1) [6] (true, Some (Double.account 5))
               Double.emptySubtree in
  out.1.1.2 = None /\ out.1.1.1 = true /\
  (forall kv, kv ∈ [(Double.pad Double.accF0A9, [5]); (Double.pad Double.accF0B1, [6])] ->
     is_Some (accounts Double.warmed !! BytesToHash kv.1)).
Proof.
  intros out.
  assert (accountWalker Double.DecodeForStorage (Double.pad Double.accF0A9)
            (Double.pad Double.accF0B1) [6] (true, Some (Double.account 5))
            Double.emptySubtree
          = (out.1.1.1, None, out.1.2, out.2)) as Hout by (vm_compute; reflexivity).
  assert (Double.ReadAccountData Double.scenario Double.accF0A9 NewStateCache
          = (Ok (Some (Double.account 5)), Double.warmed,
             [WalkBucket TrieOfAccountsBucket [] 0; WalkBucket HashedAccountsBucket [240] 8]))
    as Hrun by (vm_compute; reflexivity).
  assert (WalkBucket HashedAccountsBucket [240] 8
          ∈ [WalkBucket TrieOfAccountsBucket [] 0; WalkBucket HashedAccountsBucket [240] 8])
    as Hin by (apply list_elem_of_In; simpl; right; left; reflexivity).
  assert (dbWalk Double.scenario HashedAccountsBucket [240] 8
          = ([(Double.pad Double.accF0A9, [5]); (Double.pad Double.accF0B1, [6])], None))
    as Hwalk by (vm_compute; reflexivity).
  destruct (accountWalker_never_stops Double.sha Double.DecodeForStorage
              Double.UnmarshalTrieNodeTyped) as [Hstep Hcall].
  split; [vm_compute; reflexivity|]. split.
  - exact (Hstep _ _ _ _ _ _ _ _ Hout).
  - exact (proj1 (proj2 (Hcall _ _ _ _ _ _ _ _ _ _ Hrun Hin Hwalk))).
Defined.

Lemma ReadAccountStorage_incarnation_scoped_witness :
  let c := SetStorageRead [1] 1 [9] [3] NewStateCache in
  GetStorage c [1] 2 [9] = GetStorage NewStateCache [1] 2 [9] /\
  exists c',
    ReadAccountStorage Double.scenario [1] 2 [9] c
    = (readAccountStorage Double.scenario [1] 2 [9], c', [GetAccountStorage [1] 2 [9]]).
Proof.
  intros c.
  assert ((1 : N) <> 2) as Hne by discriminate.
  pose proof (ReadAccountStorage_incarnation_scoped Double.scenario NewStateCache
                [1] 1 2 [9] [3] Hne) as [Hget Hread].
  split; [exact Hget|]. apply Hread. reflexivity.
Defined.

Lemma ReadAccountCode_size_cutoff_witness :
  exists c1,
    Double.ReadAccountCode (Double.codeStore 1024) [1] 1 [2] NewStateCache
    = (Ok (Double.blob 1024), c1, [GetAccountCode [1] 1 [2]]) /\
    ((length (Double.blob 1024) <= 1024)%nat ->
       GetCode c1 [1] 1 = Some (Double.blob 1024) /\
       Double.ReadAccountCode (Double.codeStore 1024) [1] 1 [2] c1
       = (Ok (Double.blob 1024), c1, [])) /\
    ((1024 < length (Double.blob 1024))%nat ->
       c1 = NewStateCache /\
       Double.ReadAccountCode (Double.codeStore 1024) [1] 1 [2] c1
       = (Ok (Double.blob 1024), c1, [GetAccountCode [1] 1 [2]])).
Proof.
  apply (ReadAccountCode_size_cutoff Double.emptyCodeHash (Double.codeStore 1024)
           NewStateCache [1] 1 [2] (Double.blob 1024)).
  - discriminate.
  - reflexivity.
  - reflexivity.
Defined.

(** The cutoff on both sides: a blob of 1024 bytes is served from the cache
    the second time, one of 1025 bytes is fetched again. *)
Example code_1024_cached :
  let c1 := (Double.ReadAccountCode (Double.codeStore 1024) [1] 1 [2] NewStateCache).1.2 in
  (Double.ReadAccountCode (Double.codeStore 1024) [1] 1 [2] c1).2 = [].
Proof. vm_compute. reflexivity. Qed.

Example code_1025_refetched :
  let c1 := (Double.ReadAccountCode (Double.codeStore 1025) [1] 1 [2] NewStateCache).1.2 in
  c1 = NewStateCache /\
  (Double.ReadAccountCode (Double.codeStore 1025) [1] 1 [2] c1).2 = [GetAccountCode [1] 1 [2]].
Proof. vm_compute. split; reflexivity. Qed.

(* ===================================================================== *)
(** ** Further properties of the reader *)
(* ===================================================================== *)

Section Reader.

Context (sha : bytes -> bytes) (DecodeForStorage : bytes -> result Account)
        (UnmarshalTrieNodeTyped : bytes -> bool * bool * bool * bytes)
        (emptyCodeHash : bytes).

Local Abbreviation hashOf := (hashAddress sha).
Local Abbreviation pathOf a := (DecompressNibbles (hashAddress sha a)).
Local Abbreviation RAD := (ReadAccountData sha DecodeForStorage UnmarshalTrieNodeTyped).
Local Abbreviation getAccount := (GetAccount sha).
Local Abbreviation setAbsent := (SetAccountAbsent sha).
Local Abbreviation setRead := (SetAccountRead sha).
Local Abbreviation scanWalker := (accountWalker DecodeForStorage).
Local Abbreviation warmIdx := (warmTrie UnmarshalTrieNodeTyped).
Local Abbreviation afterReads := (cacheAfterReads sha DecodeForStorage UnmarshalTrieNodeTyped).
Local Abbreviation readCode := (ReadAccountCode emptyCodeHash).
Local Abbreviation readCodeSize := (ReadAccountCodeSize emptyCodeHash).

(** *** [ReadAccountData]: what a call returns is what the cache then holds *)

(** While [found] is unset, [a] is still nil. *)
Lemma scan_unfound_nil hashed entries tail l c err l' c' :
  walkLoop (scanWalker hashed) entries tail l c = (err, l', c') ->
  (l.1 = false -> l.2 = None) -> l'.1 = false -> l'.2 = None.
Proof.
  revert l c. induction entries as [|[k v] rest IH]; intros l c Hloop Hl; simpl in Hloop.
  - by inversion Hloop; subst.
  - destruct (accountWalker_cases DecodeForStorage hashed k v l c)
      as [(acc & _ & Hw) | [(_ & e & _ & Hw) | (_ & acc & _ & Hw)]];
      rewrite Hw in Hloop.
    + apply (IH _ _ Hloop). by case_bool_decide.
    + by inversion Hloop; subst.
    + apply (IH _ _ Hloop). by case_bool_decide.
Qed.

Lemma readBySearchResult_result_cached r A ihK hs ld c res c' t :
  accounts c !! hashOf A = None ->
  readBySearchResult sha DecodeForStorage r A (hashOf A) ihK hs ld c = (Ok res, c', t) ->
  accounts c' !! hashOf A = Some res.
Proof.
  intros Hnone Hr.
  destruct (readBySearchResult_cases sha DecodeForStorage r A (hashOf A) ihK hs ld c)
    as [(-> & Heq) | [(K & -> & _ & Heq)
       | (K & es & tail & err & found & a & cs & -> & -> & -> & Hwalk & Hloop & Heq)]];
    rewrite Heq in Hr; [rewrite readThrough_eq in Hr|..].
  - destruct (readAccountData r A) as [[acc|]|e]; inversion Hr; subst; simpl;
      apply lookup_insert_eq.
  - inversion Hr; subst; simpl. apply lookup_insert_eq.
  - destruct err as [e|]; [done|]. inversion Hr; subst; clear Hr.
    pose proof (scan_unfound_nil _ _ _ _ _ _ _ _ Hloop (fun _ => eq_refl)) as Hnil.
    destruct (scan_loop _ _ _ _ _ _ _ _ _ Hloop) as (_ & _ & _ & _ & Hinv).
    specialize (Hinv (hashAddress_length sha A) (scanInv_init _ _ Hnone)).
    destruct found; simpl.
    + destruct Hinv as [_ Hfound]. destruct (Hfound eq_refl) as (acc & Ha & Hrec).
      simpl in Ha. by subst.
    + pose proof (Hnil eq_refl) as Ha. simpl in Ha. subst. apply lookup_insert_eq.
Qed.

Lemma ReadAccountData_result_cached r A c res c' tr :
  RAD r A c = (Ok res, c', tr) -> getAccount c' A = Some res.
Proof.
  intros Hrun. destruct (getAccount c A) as [x|] eqn:Hhit.
  { rewrite (ReadAccountData_hit _ _ _ r A c x Hhit) in Hrun. by inversion Hrun; subst. }
  rewrite (ReadAccountData_miss _ _ _ r A c Hhit) in Hrun.
  destruct (searchAccountTrie UnmarshalTrieNodeTyped r (pathOf A) c) as [[s cw] t0] eqn:Hs.
  apply searchAccountTrie_post in Hs as ((Hacc & _) & _).
  destruct s as [[[[ihK hs] ld] m]|e]; [|done].
  destruct (readBySearchResult sha DecodeForStorage r A (hashOf A) ihK hs ld cw)
    as [[res1 c1] t1] eqn:Hr.
  inversion Hrun; subst; clear Hrun.
  unfold GetAccount in Hhit. rewrite <- Hacc in Hhit.
  by apply (readBySearchResult_result_cached _ _ _ _ _ _ _ _ _ Hhit Hr).
Qed.

(** X1.  Whatever a successful call returned for an address, Present or
    Absent, every later call for it on the same cache returns again, from the
    cache alone, whatever other account reads came in between. *)
Theorem ReadAccountData_read_stable r A c res c1 t1 others :
  ReadAccountData sha DecodeForStorage UnmarshalTrieNodeTyped r A c = (Ok res, c1, t1) ->
  let c2 := cacheAfterReads sha DecodeForStorage UnmarshalTrieNodeTyped r others c1 in
  ReadAccountData sha DecodeForStorage UnmarshalTrieNodeTyped r A c2 = (Ok res, c2, []).
Proof.
  intros Hrun c2. apply ReadAccountData_hit. unfold GetAccount.
  apply cacheAfterReads_kept. by apply (ReadAccountData_result_cached _ _ _ _ _ _ Hrun).
Qed.

(** *** [ReadAccountData]: errors *)

(** A trie-node scan resets the flag of the nodes it inserts and sets none. *)
Lemma warmTrie_loaded entries c k d :
  accountTrie (warmIdx entries c) !! k = Some d -> loaded d = true ->
  accountTrie c !! k = Some d.
Proof.
  revert c. induction entries as [|[k0 v0] rest IH]; intros c Hk Hld; [done|].
  unfold warmTrie in Hk. simpl in Hk.
  unfold trieWalker in Hk at 2.
  destruct (UnmarshalTrieNodeTyped v0) as [[[hs ht] hh] nv]. simpl in Hk.
  pose proof (IH _ Hk Hld) as Hc. simpl in Hc.
  destruct (decide (k0 = k)) as [->|Hne].
  - rewrite lookup_insert_eq in Hc. injection Hc as <-. done.
  - by rewrite lookup_insert_ne in Hc.
Qed.

Lemma searchAccountTrie_loaded r P c s cw t0 k d :
  searchAccountTrie UnmarshalTrieNodeTyped r P c = (s, cw, t0) ->
  accountTrie cw !! k = Some d -> loaded d = true -> accountTrie c !! k = Some d.
Proof.
  intros Hs.
  destruct (searchAccountTrie_cases UnmarshalTrieNodeTyped r P c)
    as [(ihK & hs & ld & _ & Heq) | (ihK & hs & ld & es & tail & _ & _ & Heq)];
    rewrite Heq in Hs; inversion Hs; subst; [done|apply warmTrie_loaded].
Qed.

(** X2.  A call that returns an error made at least one Backing Store access,
    leaves no Absent marker for its address, and marks no prefix loaded:
    every descriptor that is loaded afterwards was there, loaded, before. *)
Theorem ReadAccountData_error_not_cached r A c e c' tr :
  ReadAccountData sha DecodeForStorage UnmarshalTrieNodeTyped r A c = (Err e, c', tr) ->
  tr <> [] /\
  GetAccount sha c A = None /\
  GetAccount sha c' A <> Some None /\
  (forall k d, accountTrie c' !! k = Some d -> loaded d = true ->
               accountTrie c !! k = Some d).
Proof.
  intros Hrun. destruct (getAccount c A) as [x|] eqn:Hhit.
  { rewrite (ReadAccountData_hit _ _ _ r A c x Hhit) in Hrun. by inversion Hrun. }
  rewrite (ReadAccountData_miss _ _ _ r A c Hhit) in Hrun.
  destruct (searchAccountTrie UnmarshalTrieNodeTyped r (pathOf A) c) as [[s cw] t0] eqn:Hs.
  pose proof (fun k d => searchAccountTrie_loaded _ _ _ _ _ _ k d Hs) as Hld.
  pose proof Hs as Hpost. apply searchAccountTrie_post in Hpost as ((Hacc & _) & _).
  unfold GetAccount in Hhit |- *.
  destruct s as [[[[ihK hs] ld] m]|e0].
  2:{ inversion Hrun; subst; clear Hrun. rewrite app_nil_r.
      split; [|split; [done|split; [by rewrite Hacc, Hhit|apply Hld]]].
      destruct (searchAccountTrie_cases UnmarshalTrieNodeTyped r (pathOf A) c)
        as [(? & ? & ? & _ & Heq) | (? & ? & ? & ? & ? & _ & _ & Heq)];
        rewrite Heq in Hs; by inversion Hs. }
  destruct (readBySearchResult sha DecodeForStorage r A (hashOf A) ihK hs ld cw)
    as [[res1 c1] t1] eqn:Hr.
  inversion Hrun; subst; clear Hrun.
  rewrite <- Hacc in Hhit.
  destruct (readBySearchResult_cases sha DecodeForStorage r A (hashOf A) ihK hs ld cw)
    as [(-> & Heq) | [(K & -> & _ & Heq)
       | (K & es & tail & err & found & a & cs & -> & -> & -> & Hwalk & Hloop & Heq)]];
    rewrite Heq in Hr; [rewrite readThrough_eq in Hr|..].
  - destruct (readAccountData r A) as [[acc|]|e1]; inversion Hr; subst.
    split; [by destruct t0|]. split; [done|]. split; [by rewrite Hhit|apply Hld].
  - by inversion Hr.
  - destruct err as [e1|]; [|by inversion Hr]. inversion Hr; subst; clear Hr.
    destruct (scan_loop _ _ _ _ _ _ _ _ _ Hloop) as (_ & (_ & _ & _ & Htrie) & _ & _ & Hinv).
    specialize (Hinv (hashAddress_length sha A) (scanInv_init _ _ Hhit)).
    split; [by destruct t0|]. split; [done|]. split.
    + destruct Hinv as [[Hrec|[acc Hrec]] _]; by rewrite Hrec.
    + intros k d. rewrite Htrie. apply Hld.
Qed.

(** *** [ReadAccountData]: cost and frame *)

(** X3.  The Backing Store accesses of one call are at most one scan of the
    trie-node bucket, from the empty key, followed by at most one of a point
    lookup of the address and a scan of the hashed-account bucket; a call
    that hits the cache makes none. *)
Theorem ReadAccountData_access_shape r A c res c' tr :
  ReadAccountData sha DecodeForStorage UnmarshalTrieNodeTyped r A c = (res, c', tr) ->
  (exists t0 t1,
     tr = t0 ++ t1 /\
     (t0 = [] \/ t0 = [WalkBucket TrieOfAccountsBucket [] 0]) /\
     (t1 = [] \/ t1 = [GetAccountData A] \/
      exists K, t1 = [WalkBucket HashedAccountsBucket (accountScanKey K) (accountScanBits K)])) /\
  (is_Some (GetAccount sha c A) -> tr = []) /\
  (length tr <= 2)%nat.
Proof.
  intros Hrun.
  assert ((exists t0 t1,
     tr = t0 ++ t1 /\
     (t0 = [] \/ t0 = [WalkBucket TrieOfAccountsBucket [] 0]) /\
     (t1 = [] \/ t1 = [GetAccountData A] \/
      exists K, t1 = [WalkBucket HashedAccountsBucket (accountScanKey K) (accountScanBits K)])) /\
    (is_Some (getAccount c A) -> tr = [])) as [Hshape Hhit'].
  { destruct (getAccount c A) as [x|] eqn:Hhit.
    { rewrite (ReadAccountData_hit _ _ _ r A c x Hhit) in Hrun. inversion Hrun; subst.
      split; [|done]. exists [], []. auto. }
    split; [|by intros [? ?]].
    rewrite (ReadAccountData_miss _ _ _ r A c Hhit) in Hrun.
    assert (exists s cw t0,
              searchAccountTrie UnmarshalTrieNodeTyped r (pathOf A) c = (s, cw, t0) /\
              (t0 = [] \/ t0 = [WalkBucket TrieOfAccountsBucket [] 0]))
      as (s & cw & t0 & Hs & Ht0).
    { destruct (searchAccountTrie_cases UnmarshalTrieNodeTyped r (pathOf A) c)
        as [(ihK & hs & ld & _ & Heq) | (ihK & hs & ld & es & tail & Hfind & _ & Heq)].
      - eexists _, _, _. split; [exact Heq|by left].
      - apply FindDeepest_miss in Hfind as ->.
        eexists _, _, _. split; [exact Heq|by right]. }
    rewrite Hs in Hrun.
    destruct s as [[[[ihK hs] ld] m]|e0].
    2:{ inversion Hrun; subst. exists t0, []. auto. }
    destruct (readBySearchResult sha DecodeForStorage r A (hashOf A) ihK hs ld cw)
      as [[res1 c1] t1] eqn:Hr.
    inversion Hrun; subst; clear Hrun.
    exists t0, t1. split; [done|]. split; [done|].
    destruct (readBySearchResult_cases sha DecodeForStorage r A (hashOf A) ihK hs ld cw)
      as [(-> & Heq) | [(K & -> & _ & Heq)
         | (K & es & tail & err & found & a & cs & -> & -> & -> & _ & _ & Heq)]];
      rewrite Heq in Hr; [rewrite readThrough_eq in Hr|..].
    - destruct (readAccountData r A) as [[acc|]|e1]; inversion Hr; subst; auto.
    - inversion Hr; subst; auto.
    - inversion Hr; subst. right. right. by exists K. }
  split; [done|]. split; [done|].
  destruct Hshape as (t0 & t1 & -> & [->| ->] & [->|[->|[K ->]]]); simpl; lia.
Qed.

Lemma ReadAccountData_entities_kept r A c res c' tr :
  RAD r A c = (res, c', tr) ->
  storage c' = storage c /\ codes c' = codes c /\ deletedAccounts c' = deletedAccounts c.
Proof.
  intros Hrun. destruct (getAccount c A) as [x|] eqn:Hhit.
  { rewrite (ReadAccountData_hit _ _ _ r A c x Hhit) in Hrun. by inversion Hrun; subst. }
  rewrite (ReadAccountData_miss _ _ _ r A c Hhit) in Hrun.
  destruct (searchAccountTrie UnmarshalTrieNodeTyped r (pathOf A) c) as [[s cw] t0] eqn:Hs.
  apply searchAccountTrie_post in Hs as ((_ & Hst & Hco & Hde) & _).
  destruct s as [[[[ihK hs] ld] m]|e0]; [|by inversion Hrun; subst].
  destruct (readBySearchResult sha DecodeForStorage r A (hashOf A) ihK hs ld cw)
    as [[res1 c1] t1] eqn:Hr.
  inversion Hrun; subst; clear Hrun. rewrite <- Hst, <- Hco, <- Hde.
  destruct (readBySearchResult_cases sha DecodeForStorage r A (hashOf A) ihK hs ld cw)
    as [(-> & Heq) | [(K & -> & _ & Heq)
       | (K & es & tail & err & found & a & cs & -> & -> & -> & _ & Hloop & Heq)]];
    rewrite Heq in Hr; [rewrite readThrough_eq in Hr|..].
  - by destruct (readAccountData r A) as [[acc|]|e1]; inversion Hr; subst.
  - by inversion Hr; subst.
  - inversion Hr; subst; clear Hr.
    destruct (scan_loop _ _ _ _ _ _ _ _ _ Hloop) as (_ & (Hst' & Hco' & Hde' & _) & _).
    by destruct err, found.
Qed.

Lemma cacheAfterReads_entities_kept r others c :
  storage (afterReads r others c) = storage c /\
  codes (afterReads r others c) = codes c /\
  deletedAccounts (afterReads r others c) = deletedAccounts c.
Proof.
  revert c. induction others as [|B rest IH]; intros c; [done|].
  unfold cacheAfterReads. simpl.
  destruct (RAD r B c) as [[res c'] tr] eqn:Hrun. simpl.
  destruct (ReadAccountData_entities_kept _ _ _ _ _ _ Hrun) as (Hst & Hco & Hde).
  destruct (IH c') as (Hst' & Hco' & Hde'). unfold cacheAfterReads in *.
  rewrite Hst', Hco', Hde'. done.
Qed.

(** X4.  Account reads touch the account records and the Trie Prefix Index
    only: after a call, and after any further calls, the storage, code and
    deleted-account entries of the cache are those the first call found,
    whatever the outcomes. *)
Theorem ReadAccountData_frame r A c res c' tr others :
  ReadAccountData sha DecodeForStorage UnmarshalTrieNodeTyped r A c = (res, c', tr) ->
  let c2 := cacheAfterReads sha DecodeForStorage UnmarshalTrieNodeTyped r others c' in
  (storage c' = storage c /\ codes c' = codes c /\
   deletedAccounts c' = deletedAccounts c) /\
  (storage c2 = storage c /\ codes c2 = codes c /\ deletedAccounts c2 = deletedAccounts c).
Proof.
  intros Hrun c2.
  destruct (ReadAccountData_entities_kept _ _ _ _ _ _ Hrun) as (Hst & Hco & Hde).
  split; [done|].
  destruct (cacheAfterReads_entities_kept r others c') as (Hst' & Hco' & Hde').
  subst c2. rewrite Hst', Hco', Hde'. done.
Qed.

(** X5.  A call never changes an account record the cache already holds, and
    the only address it can mark Absent is its own: any other record it adds
    is a Present one. *)
Theorem ReadAccountData_marks_only_target r A c res c' tr :
  ReadAccountData sha DecodeForStorage UnmarshalTrieNodeTyped r A c = (res, c', tr) ->
  (forall h x, accounts c !! h = Some x -> accounts c' !! h = Some x) /\
  (forall h, h <> hashOf A -> accounts c !! h = None ->
     accounts c' !! h = None \/ exists acc, accounts c' !! h = Some (Some acc)).
Proof.
  intros Hrun. split; [by apply (ReadAccountData_post _ _ _ _ _ _ _ _ _ Hrun)|].
  intros h Hne Hnone. destruct (getAccount c A) as [x|] eqn:Hhit.
  { rewrite (ReadAccountData_hit _ _ _ r A c x Hhit) in Hrun. inversion Hrun; subst. auto. }
  rewrite (ReadAccountData_miss _ _ _ r A c Hhit) in Hrun.
  destruct (searchAccountTrie UnmarshalTrieNodeTyped r (pathOf A) c) as [[s cw] t0] eqn:Hs.
  apply searchAccountTrie_post in Hs as ((Hacc & _) & _).
  rewrite <- Hacc in Hnone.
  destruct s as [[[[ihK hs] ld] m]|e0]; [|inversion Hrun; subst; auto].
  destruct (readBySearchResult sha DecodeForStorage r A (hashOf A) ihK hs ld cw)
    as [[res1 c1] t1] eqn:Hr.
  inversion Hrun; subst; clear Hrun.
  destruct (readBySearchResult_cases sha DecodeForStorage r A (hashOf A) ihK hs ld cw)
    as [(-> & Heq) | [(K & -> & _ & Heq)
       | (K & es & tail & err & found & a & cs & -> & -> & -> & _ & Hloop & Heq)]];
    rewrite Heq in Hr; [rewrite readThrough_eq in Hr|..].
  - destruct (readAccountData r A) as [[acc|]|e1]; inversion Hr; subst; simpl;
      rewrite ?lookup_insert_ne by done; auto.
  - inversion Hr; subst; simpl. rewrite lookup_insert_ne by done. auto.
  - inversion Hr; subst; clear Hr.
    destruct (scan_loop _ _ _ _ _ _ _ _ _ Hloop) as (Hext & _).
    specialize (Hext h). rewrite Hnone in Hext.
    destruct err, found; simpl; rewrite ?lookup_insert_ne by done; done.
Qed.

(** X6.  After a call that scanned the accounts under a prefix and succeeded,
    an address that resolves to that prefix and is still Unknown is answered
    Absent and marked so, without any Backing Store access. *)
Theorem ReadAccountData_loaded_prefix_absent r A B c r1 c1 t1 :
  ReadAccountData sha DecodeForStorage UnmarshalTrieNodeTyped r A c = (Ok r1, c1, t1) ->
  accountScans t1 <> 0%nat ->
  deepestPrefix c1 (pathOf B) = deepestPrefix c1 (pathOf A) ->
  GetAccount sha c1 B = None ->
  ReadAccountData sha DecodeForStorage UnmarshalTrieNodeTyped r B c1
  = (Ok None, SetAccountAbsent sha B c1, []).
Proof.
  intros Hrun Hpos Hsame Hunknown.
  destruct (accountScans_pos _ Hpos) as (start & bits & Hin).
  destruct (ReadAccountData_scan_inv _ _ _ _ _ _ _ _ _ _ _ Hrun Hin)
    as (cw & K & es & tail & err & found & a & cs & _ & _ & Hfind & _ & _ & _
        & Hloop & _ & Hres & ->).
  destruct err as [e|]; [done|].
  destruct (scan_loop _ _ _ _ _ _ _ _ _ Hloop) as (_ & Hsamecs & _).
  pose proof (scanned_prefix_loaded sha A cw K found cs Hfind Hsamecs) as HfindA.
  set (c1 := MarkAccountTrieAsLoaded K (if found then cs else setAbsent A cs)) in *.
  unfold deepestPrefix in Hsame. rewrite HfindA in Hsame. simpl in Hsame.
  destruct (FindDeepestAccountTrie c1 (pathOf B)) as [[[ihK hsB] ldB] mB] eqn:HfindB.
  simpl in Hsame. subst ihK.
  destruct (FindDeepest_Some _ _ _ _ _ _ HfindA) as (_ & dA & HdA & _ & HldA).
  destruct (FindDeepest_Some _ _ _ _ _ _ HfindB) as (-> & dB & HdB & _ & HldB).
  rewrite HdA in HdB. injection HdB as <-. rewrite <- HldA in HldB. subst ldB.
  apply (ReadAccountData_absent_branch _ _ _ r B c1 K hsB true Hunknown HfindB). by right.
Qed.

(** *** [ReadAccountStorage] *)

(** X7.  A value a storage read returned is returned again by the next read
    of the same slot, from the cache alone; a zero-length value fetched from
    the store is kept as the Absent marker and read back as the empty value. *)
Theorem ReadAccountStorage_read_stable r A inc key c v c1 t1 :
  ReadAccountStorage r A inc key c = (Ok v, c1, t1) ->
  ReadAccountStorage r A inc key c1 = (Ok v, c1, []) /\
  (GetStorage c A inc key = None ->
   GetStorage c1 A inc key = Some (if Nat.eqb (length v) 0 then None else Some v)).
Proof.
  unfold ReadAccountStorage, bind, gets, access, modify, ret.
  destruct (GetStorage c A inc key) as [s|] eqn:Hhit.
  - intros [= <- <- <-]. rewrite Hhit. done.
  - destruct (readAccountStorage r A inc key) as [val|e]; [|done].
    destruct (Nat.eqb (length val) 0) eqn:Hlen; intros [= <- <- <-];
      unfold GetStorage, SetStorageAbsent, SetStorageRead; simpl;
      rewrite lookup_insert_eq; simpl.
    + apply Nat.eqb_eq in Hlen. destruct val; [by split|by simpl in Hlen].
    + rewrite Hlen. done.
Qed.

(** X8.  A storage read changes at most the cached entry of the slot it
    reads; it changes nothing at all when it hits the cache or when the store
    fails, and a store failure is returned after exactly one point lookup. *)
Theorem ReadAccountStorage_frame r A inc key c res c' tr :
  ReadAccountStorage r A inc key c = (res, c', tr) ->
  accounts c' = accounts c /\ codes c' = codes c /\
  deletedAccounts c' = deletedAccounts c /\ accountTrie c' = accountTrie c /\
  (forall slot, slot <> (A, inc, key) -> storage c' !! slot = storage c !! slot) /\
  (is_Some (GetStorage c A inc key) -> c' = c /\ tr = []) /\
  (forall e, res = Err e ->
     c' = c /\ tr = [GetAccountStorage A inc key] /\ readAccountStorage r A inc key = Err e).
Proof.
  unfold ReadAccountStorage, bind, gets, access, modify, ret.
  destruct (GetStorage c A inc key) as [s|] eqn:Hhit.
  { intros [= <- <- <-]. split_and!; done. }
  destruct (readAccountStorage r A inc key) as [val|e].
  - destruct (Nat.eqb (length val) 0); intros [= <- <- <-]; simpl;
      (split_and!; try done; try (by intros [? ?]);
       by intros slot Hne; rewrite lookup_insert_ne).
  - intros [= <- <- <-]. split_and!; try done; try (by intros [? ?]);
      try (by intros e' [= ->]).
Qed.

(** *** [ReadAccountCode] and [ReadAccountCodeSize] *)

(** X9.  The code hash is no part of the cache key: once a blob of at most
    1024 bytes has been fetched for an address and incarnation, a read under
    any other code hash returns that blob without asking the store -- except
    under the hash of the empty code, which always gives the empty code. *)
Theorem ReadAccountCode_hash_not_keyed r c A inc h1 code c1 t1 :
  h1 <> emptyCodeHash ->
  GetCode c A inc = None ->
  ReadAccountCode emptyCodeHash r A inc h1 c = (Ok code, c1, t1) ->
  (length code <= 1024)%nat ->
  (forall h2, h2 <> emptyCodeHash ->
     ReadAccountCode emptyCodeHash r A inc h2 c1 = (Ok code, c1, [])) /\
  ReadAccountCode emptyCodeHash r A inc emptyCodeHash c1 = (Ok [], c1, []).
Proof.
  intros Hh1 Hmiss Hrun Hlen.
  assert (GetCode c1 A inc = Some code) as Hcached.
  { revert Hrun. unfold ReadAccountCode, bind, gets, access, modify, ret.
    rewrite bool_decide_eq_false_2 by done. rewrite Hmiss.
    destruct (readAccountCode r A inc h1) as [blob|e]; [|done].
    destruct (decide (length blob <= 1024)%nat) as [Hle|Hgt]; intros [= <- <- <-]; [|lia].
    unfold GetCode, SetCodeRead. rewrite decide_True by done. simpl.
    apply lookup_insert_eq. }
  split.
  - intros h2 Hh2. unfold ReadAccountCode, bind, gets, ret.
    rewrite bool_decide_eq_false_2 by done. by rewrite Hcached.
  - unfold ReadAccountCode, ret. by rewrite bool_decide_eq_true_2.
Qed.

(** X10.  A code read changes at most the cached code of the address and
    incarnation it reads, and nothing at all when it hits the cache, when the
    hash is that of the empty code, when the store fails or when the blob is
    longer than 1024 bytes. *)
Theorem ReadAccountCode_frame r A inc h c res c' tr :
  ReadAccountCode emptyCodeHash r A inc h c = (res, c', tr) ->
  accounts c' = accounts c /\ storage c' = storage c /\
  deletedAccounts c' = deletedAccounts c /\ accountTrie c' = accountTrie c /\
  (forall slot, slot <> (A, inc) -> codes c' !! slot = codes c !! slot) /\
  (h = emptyCodeHash \/ is_Some (GetCode c A inc) -> c' = c /\ tr = []) /\
  (forall e, res = Err e -> c' = c) /\
  (forall code, res = Ok code -> (1024 < length code)%nat -> c' = c).
Proof.
  unfold ReadAccountCode, bind, gets, access, modify, ret.
  case_bool_decide as Hh.
  { intros [= <- <- <-]. split_and!; done. }
  destruct (GetCode c A inc) as [blob|] eqn:Hhit.
  { intros [= <- <- <-]. split_and!; done. }
  destruct (readAccountCode r A inc h) as [blob|e].
  - destruct (decide (length blob <= 1024)%nat) as [Hle|Hgt]; intros [= <- <- <-].
    + unfold SetCodeRead. rewrite decide_True by done. simpl.
      split_and!; try done; try (by intros [?|[? ?]]).
      * by intros slot Hne; rewrite lookup_insert_ne.
      * intros code [= <-] ?. lia.
    + split_and!; try done; try (by intros [?|[? ?]]).
  - intros [= <- <- <-]. split_and!; try done; try (by intros [?|[? ?]]).
Qed.

(** X11.  [ReadAccountCodeSize] is the length of what [ReadAccountCode]
    returns, at the same cost and with the same effect on the cache (0 with
    the error when the read fails); for a blob of at most 1024 bytes a repeated
    size query is answered without asking the store. *)
Theorem ReadAccountCodeSize_of_code r A inc h c res c1 t1 :
  ReadAccountCode emptyCodeHash r A inc h c = (res, c1, t1) ->
  ReadAccountCodeSize emptyCodeHash r A inc h c
  = (match res with Ok code => (length code, None) | Err e => (O, Some e) end, c1, t1) /\
  (forall code, res = Ok code -> (length code <= 1024)%nat ->
     ReadAccountCodeSize emptyCodeHash r A inc h c1 = ((length code, None), c1, [])).
Proof.
  intros Hrun.
  assert (forall code, res = Ok code -> (length code <= 1024)%nat ->
            readCode r A inc h c1 = (Ok code, c1, [])) as Hagain.
  { intros code -> Hlen. revert Hrun.
    unfold ReadAccountCode, bind, gets, access, modify, ret.
    case_bool_decide as Hh; [by intros [= <- <- <-]|].
    destruct (GetCode c A inc) as [blob|] eqn:Hhit.
    { intros [= <- <- <-]. by rewrite Hhit. }
    destruct (readAccountCode r A inc h) as [blob|e]; [|done].
    destruct (decide (length blob <= 1024)%nat) as [Hle|Hgt]; intros [= <- <- <-]; [|lia].
    unfold GetCode, SetCodeRead. rewrite decide_True by done. simpl.
    by rewrite lookup_insert_eq. }
  split.
  - unfold ReadAccountCodeSize, bind. rewrite Hrun.
    destruct res; unfold ret; simpl; by rewrite app_nil_r.
  - intros code Hres Hlen. unfold ReadAccountCodeSize, bind.
    rewrite (Hagain code Hres Hlen). done.
Qed.

(** *** [ReadAccountIncarnation] *)


(** *** How the reads compose *)

(** X13.  Account reads do not disturb the other reads: after any sequence of
    [ReadAccountData] calls, a storage, code or incarnation read returns the
    same result with the same Backing Store accesses as before them. *)
Theorem account_reads_do_not_interfere r others c A inc key h :
  let c2 := cacheAfterReads sha DecodeForStorage UnmarshalTrieNodeTyped r others c in
  (ReadAccountStorage r A inc key c2).1.1 = (ReadAccountStorage r A inc key c).1.1 /\
  (ReadAccountStorage r A inc key c2).2 = (ReadAccountStorage r A inc key c).2 /\
  (ReadAccountCode emptyCodeHash r A inc h c2).1.1
  = (ReadAccountCode emptyCodeHash r A inc h c).1.1 /\
  (ReadAccountCode emptyCodeHash r A inc h c2).2 = (ReadAccountCode emptyCodeHash r A inc h c).2 /\
  (ReadAccountIncarnation r A c2).1.1 = (ReadAccountIncarnation r A c).1.1 /\
  (ReadAccountIncarnation r A c2).2 = (ReadAccountIncarnation r A c).2.
Proof.
  intros c2.
  destruct (cacheAfterReads_entities_kept r others c) as (Hst & Hco & Hde).
  fold c2 in Hst, Hco, Hde.
  assert (ReadAccountStorage r A inc key c2 = 
          let out := ReadAccountStorage r A inc key c in
          (out.1.1, (ReadAccountStorage r A inc key c2).1.2, out.2)) as Hstorage.
  { unfold ReadAccountStorage, bind, gets, access, modify, ret, GetStorage.
    rewrite Hst. destruct (storage c !! (A, inc, key)); [done|].
    destruct (readAccountStorage r A inc key) as [val|e]; [|done].
    by destruct (Nat.eqb (length val) 0). }
  assert (readCode r A inc h c2 =
          let out := readCode r A inc h c in
          (out.1.1, (readCode r A inc h c2).1.2, out.2)) as Hcode.
  { unfold ReadAccountCode. case_bool_decide; [done|].
    unfold bind, gets, access, modify, ret, GetCode.
    rewrite Hco. destruct (codes c !! (A, inc)); [done|].
    destruct (readAccountCode r A inc h) as [blob|e]; [|done].
    by destruct (decide (length blob <= 1024)%nat). }
  assert (ReadAccountIncarnation r A c2 =
          let out := ReadAccountIncarnation r A c in
          (out.1.1, (ReadAccountIncarnation r A c2).1.2, out.2)) as Hinc.
  { unfold ReadAccountIncarnation, bind, gets, access, ret, GetDeletedAccount.
    rewrite Hde. by destruct (deletedAccounts c !! A). }
  rewrite Hstorage, Hcode, Hinc. done.
Qed.

(** *** The range of the account scan *)

Lemma nibble_pack_unpack hi lo :
  hi < 16 -> lo < 16 ->
  N.land (N.shiftr (N.lor (N.land (N.shiftl hi 4) 255) lo) 4) 15 = hi /\
  N.land (N.lor (N.land (N.shiftl hi 4) 255) lo) 15 = lo.
Proof.
  intros Hhi Hlo.
  assert (hi = 0 \/ hi = 1 \/ hi = 2 \/ hi = 3 \/ hi = 4 \/ hi = 5 \/ hi = 6 \/ hi = 7 \/
          hi = 8 \/ hi = 9 \/ hi = 10 \/ hi = 11 \/ hi = 12 \/ hi = 13 \/ hi = 14 \/ hi = 15)
    as Hh by lia.
  assert (lo = 0 \/ lo = 1 \/ lo = 2 \/ lo = 3 \/ lo = 4 \/ lo = 5 \/ lo = 6 \/ lo = 7 \/
          lo = 8 \/ lo = 9 \/ lo = 10 \/ lo = 11 \/ lo = 12 \/ lo = 13 \/ lo = 14 \/ lo = 15)
    as Hl by lia.
  clear Hhi Hlo.
  repeat (destruct Hh as [->|Hh]); try subst hi;
    repeat (destruct Hl as [->|Hl]); try subst lo; by vm_compute.
Qed.

Lemma DecompressNibbles_length b : length (DecompressNibbles b) = (2 * length b)%nat.
Proof.
  unfold DecompressNibbles. induction b as [|x b IH]; [done|]. simpl in *. lia.
Qed.

Lemma DecompressNibbles_nibbles b : Forall (fun n => n < 16) (DecompressNibbles b).
Proof.
  assert (forall x, N.land x 15 < 16) as Hland.
  { intros x. change 15 with (N.ones 4). rewrite N.land_ones. by apply N.mod_lt. }
  unfold DecompressNibbles. induction b as [|x b IH]; [constructor|].
  simpl. repeat constructor; auto.
Qed.

Lemma Decompress_Compress n : forall K,
  length K = (2 * n)%nat -> Forall (fun x => x < 16) K ->
  DecompressNibbles (CompressNibbles K) = K.
Proof.
  induction n as [|n IH]; intros K Hlen Hnib.
  - by destruct K.
  - destruct K as [|hi [|lo K]]; simpl in Hlen; try lia.
    apply Forall_cons in Hnib as [Hhi Hnib]. apply Forall_cons in Hnib as [Hlo Hnib].
    destruct (nibble_pack_unpack hi lo Hhi Hlo) as [Eh El].
    simpl. unfold DecompressNibbles in *. simpl. rewrite Eh, El.
    f_equal. f_equal. apply IH; [lia|done].
Qed.

(** X14.  The account scan is aimed at the subtree of its target: the start
    key, unpacked to nibbles, begins with the matched prefix, which is a
    prefix of the target's own nibble path of at most 64 nibbles, and the
    fixed bits are exactly the four bits of each nibble of that prefix, never
    more than the start key has. *)
Theorem accountScan_aims_at_target c A K hs ld m :
  FindDeepestAccountTrie c (pathOf A) = (Some K, hs, ld, m) ->
  take (length K) (DecompressNibbles (accountScanKey K)) = K /\
  take (length K) (pathOf A) = K /\
  (length K <= 64)%nat /\
  (accountScanBits K = 4 * Z.of_nat (length K))%Z /\
  (accountScanBits K <= 8 * Z.of_nat (length (accountScanKey K)))%Z.
Proof.
  unfold FindDeepestAccountTrie.
  destruct (deepestNode _ (pathOf A) _) as [[k d]|] eqn:Hd; [|done].
  intros [= <- _ _ _]. apply deepestNode_Some in Hd as [_ Hk].
  assert (Forall (fun x => x < 16) k) as Hnib.
  { rewrite Hk. apply Forall_take, DecompressNibbles_nibbles. }
  assert (length k <= 64)%nat as Hlen.
  { rewrite Hk, length_take, DecompressNibbles_length, (hashAddress_length sha).
    unfold HashLength. lia. }
  assert (exists n, DecompressNibbles (accountScanKey k) = k ++ replicate n 0 /\
                    (length k + n = 2 * length (accountScanKey k))%nat /\ (n <= 1)%nat)
    as (n & Hkey & Hn & Hn1).
  { unfold accountScanKey. cbv zeta.
    destruct (Nat.eqb (length k mod 2) 1) eqn:Hodd.
    - apply Nat.eqb_eq in Hodd. exists 1%nat. change (replicate 1 0) with [0].
      assert (DecompressNibbles (CompressNibbles (k ++ [0])) = k ++ [0]) as Hrt.
      { apply (Decompress_Compress (S (length k / 2))).
        - rewrite length_app. change (length [0]) with 1%nat.
          pose proof (Nat.div_mod_eq (length k) 2). lia.
        - apply Forall_app. split; [done|]. repeat constructor. }
      split; [done|]. split; [|done].
      rewrite <- (DecompressNibbles_length (CompressNibbles (k ++ [0]))), Hrt, length_app.
      change (length [0]) with 1%nat. lia.
    - apply Nat.eqb_neq in Hodd. exists 0%nat. change (replicate 0 0) with (@nil N).
      rewrite app_nil_r.
      assert (DecompressNibbles (CompressNibbles k) = k) as Hrt.
      { apply (Decompress_Compress (length k / 2)); [|done].
        pose proof (Nat.div_mod_eq (length k) 2).
        pose proof (Nat.mod_upper_bound (length k) 2). lia. }
      split; [done|]. split; [|lia].
      rewrite <- (DecompressNibbles_length (CompressNibbles k)), Hrt. lia. }
  split; [by rewrite Hkey, take_app_length|]. split; [done|]. split; [done|].
  unfold accountScanBits. cbv zeta. lia.
Qed.

(** *** What the scanning call answers *)



(** *** The index across a call *)

Lemma warmTrie_kept entries c k :
  is_Some (accountTrie c !! k) -> is_Some (accountTrie (warmIdx entries c) !! k).
Proof.
  revert c. induction entries as [|[k0 v0] rest IH]; intros c Hk; [done|].
  unfold warmTrie. simpl. apply IH.
  unfold trieWalker. destruct (UnmarshalTrieNodeTyped v0) as [[[hs ht] hh] nv]. simpl.
  destruct (decide (k0 = k)) as [->|Hne].
  - rewrite lookup_insert_eq. eauto.
  - by rewrite lookup_insert_ne.
Qed.

(** X16.  A call never drops a node from the Trie Prefix Index, and it scans
    the trie-node bucket only on a direct miss for a path of which the index
    holds no prefix: with the record cached or a prefix stored, no such scan
    is made. *)
Theorem ReadAccountData_index_kept r A c res c' tr :
  ReadAccountData sha DecodeForStorage UnmarshalTrieNodeTyped r A c = (res, c', tr) ->
  (forall k, is_Some (accountTrie c !! k) -> is_Some (accountTrie c' !! k)) /\
  (is_Some (GetAccount sha c A) \/ is_Some (deepestPrefix c (pathOf A)) -> trieScans tr = 0%nat).
Proof.
  intros Hrun. destruct (getAccount c A) as [x|] eqn:Hhit.
  { rewrite (ReadAccountData_hit _ _ _ r A c x Hhit) in Hrun. by inversion Hrun; subst. }
  rewrite (ReadAccountData_miss _ _ _ r A c Hhit) in Hrun.
  destruct (searchAccountTrie UnmarshalTrieNodeTyped r (pathOf A) c) as [[s cw] t0] eqn:Hs.
  assert ((forall k, is_Some (accountTrie c !! k) -> is_Some (accountTrie cw !! k)) /\
          (is_Some (deepestPrefix c (pathOf A)) -> t0 = [])) as [Hkept Ht0].
  { destruct (searchAccountTrie_cases UnmarshalTrieNodeTyped r (pathOf A) c)
      as [(ihK & hs & ld & _ & Heq) | (ihK & hs & ld & es & tail & Hfind & _ & Heq)];
      rewrite Heq in Hs; inversion Hs; subst; [done|].
    split; [intros k; apply warmTrie_kept|].
    unfold deepestPrefix. rewrite Hfind. simpl.
    apply FindDeepest_miss in Hfind as ->. by intros [? ?]. }
  destruct s as [[[[ihK hs] ld] m]|e0].
  2:{ inversion Hrun; subst. split; [done|].
      intros [[? ?]|Hpre]; [done|]. by rewrite (Ht0 Hpre). }
  destruct (readBySearchResult sha DecodeForStorage r A (hashOf A) ihK hs ld cw)
    as [[res1 c1] t1] eqn:Hr.
  inversion Hrun; subst; clear Hrun. split.
  - intros k Hk. apply (readBySearchResult_trie_kept _ _ _ _ _ _ _ _ _ _ _ _ _ Hr).
    by apply Hkept.
  - intros [[? ?]|Hpre]; [done|]. rewrite (Ht0 Hpre). simpl.
    by destruct (readBySearchResult_no_trie_scan _ _ _ _ _ _ _ _ _ _ _ _ Hr).
Qed.

End Reader.

(* ===================================================================== *)
(** ** The further properties on the test double *)
(* ===================================================================== *)

Lemma ReadAccountData_read_stable_witness :
  let c2 := cacheAfterReads Double.sha Double.DecodeForStorage Double.UnmarshalTrieNodeTyped
              Double.scenario [Double.accF0C2; Double.accF0B1] Double.warmed in
  Double.ReadAccountData Double.scenario Double.accF0A9 c2
  = (Ok (Some (Double.account 5)), c2, []).
Proof.
  intros c2.
  assert (Double.ReadAccountData Double.scenario Double.accF0A9 NewStateCache
          = (Ok (Some (Double.account 5)), Double.warmed,
             [WalkBucket TrieOfAccountsBucket [] 0; WalkBucket HashedAccountsBucket [240] 8]))
    as Hrun by (vm_compute; reflexivity).
  exact (ReadAccountData_read_stable Double.sha Double.DecodeForStorage
           Double.UnmarshalTrieNodeTyped Double.scenario Double.accF0A9 NewStateCache
           _ _ _ [Double.accF0C2; Double.accF0B1] Hrun).
Defined.

Lemma ReadAccountData_error_not_cached_witness :
  let out := Double.ReadAccountData Double.corrupted Double.accF0C2 NewStateCache in
  out.1.1 = Err (DecodeError "malformed account") /\
  out.2 <> [] /\
  GetAccount Double.sha NewStateCache Double.accF0C2 = None /\
  GetAccount Double.sha out.1.2 Double.accF0C2 <> Some None /\
  (forall k d, accountTrie out.1.2 !! k = Some d -> loaded d = true ->
               accountTrie NewStateCache !! k = Some d).
Proof.
  intros out.
  assert (Double.ReadAccountData Double.corrupted Double.accF0C2 NewStateCache
          = (Err (DecodeError "malformed account"), out.1.2, out.2))
    as Hrun by (vm_compute; reflexivity).
  split; [vm_compute; reflexivity|].
  exact (ReadAccountData_error_not_cached Double.sha Double.DecodeForStorage
           Double.UnmarshalTrieNodeTyped Double.corrupted Double.accF0C2 NewStateCache
           _ _ _ Hrun).
Defined.

Lemma ReadAccountData_access_shape_witness :
  let out := Double.ReadAccountData Double.scenario Double.accF0A9 NewStateCache in
  (exists t0 t1,
     out.2 = t0 ++ t1 /\
     (t0 = [] \/ t0 = [WalkBucket TrieOfAccountsBucket [] 0]) /\
     (t1 = [] \/ t1 = [GetAccountData Double.accF0A9] \/
      exists K, t1 = [WalkBucket HashedAccountsBucket (accountScanKey K) (accountScanBits K)])) /\
  (is_Some (GetAccount Double.sha NewStateCache Double.accF0A9) -> out.2 = []) /\
  (length out.2 <= 2)%nat.
Proof.
  intros out.
  assert (Double.ReadAccountData Double.scenario Double.accF0A9 NewStateCache
          = (out.1.1, out.1.2, out.2))
    as Hrun by (subst out; destruct (Double.ReadAccountData _ _ _) as [[? ?] ?]; reflexivity).
  exact (ReadAccountData_access_shape Double.sha Double.DecodeForStorage
           Double.UnmarshalTrieNodeTyped Double.scenario Double.accF0A9 NewStateCache
           _ _ _ Hrun).
Defined.

Lemma ReadAccountData_frame_witness :
  let c := SetStorageRead [1] 1 [9] [3] NewStateCache in
  let out := Double.ReadAccountData Double.scenario Double.accF0A9 c in
  let c2 := cacheAfterReads Double.sha Double.DecodeForStorage Double.UnmarshalTrieNodeTyped
              Double.scenario [Double.accF0C2] out.1.2 in
  (storage out.1.2 = storage c /\ codes out.1.2 = codes c /\
   deletedAccounts out.1.2 = deletedAccounts c) /\
  (storage c2 = storage c /\ codes c2 = codes c /\ deletedAccounts c2 = deletedAccounts c).
Proof.
  intros c out.
  assert (Double.ReadAccountData Double.scenario Double.accF0A9 c
          = (out.1.1, out.1.2, out.2))
    as Hrun by (subst out; destruct (Double.ReadAccountData _ _ _) as [[? ?] ?]; reflexivity).
  exact (ReadAccountData_frame Double.sha Double.DecodeForStorage
           Double.UnmarshalTrieNodeTyped Double.scenario Double.accF0A9 c _ _ _
           [Double.accF0C2] Hrun).
Defined.

Lemma ReadAccountData_marks_only_target_witness :
  let out := Double.ReadAccountData Double.scenario Double.accF0C2 NewStateCache in
  (forall h x, accounts NewStateCache !! h = Some x -> accounts out.1.2 !! h = Some x) /\
  (forall h, h <> hashAddress Double.sha Double.accF0C2 ->
     accounts NewStateCache !! h = None ->
     accounts out.1.2 !! h = None \/ exists acc, accounts out.1.2 !! h = Some (Some acc)).
Proof.
  intros out.
  assert (Double.ReadAccountData Double.scenario Double.accF0C2 NewStateCache
          = (out.1.1, out.1.2, out.2))
    as Hrun by (subst out; destruct (Double.ReadAccountData _ _ _) as [[? ?] ?]; reflexivity).
  exact (ReadAccountData_marks_only_target Double.sha Double.DecodeForStorage
           Double.UnmarshalTrieNodeTyped Double.scenario Double.accF0C2 NewStateCache
           _ _ _ Hrun).
Defined.

Lemma ReadAccountData_loaded_prefix_absent_witness :
  Double.ReadAccountData Double.scenario Double.accF0C2 Double.warmed
  = (Ok None, SetAccountAbsent Double.sha Double.accF0C2 Double.warmed, []).
Proof.
  apply (ReadAccountData_loaded_prefix_absent Double.sha Double.DecodeForStorage
           Double.UnmarshalTrieNodeTyped Double.scenario Double.accF0A9 Double.accF0C2
           NewStateCache (Some (Double.account 5)) Double.warmed
           [WalkBucket TrieOfAccountsBucket [] 0; WalkBucket HashedAccountsBucket [240] 8]).
  - vm_compute. reflexivity.
  - vm_compute. discriminate.
  - vm_compute. reflexivity.
  - vm_compute. reflexivity.
Defined.

Lemma ReadAccountStorage_read_stable_witness :
  let out := ReadAccountStorage Double.scenario [1] 1 [9] NewStateCache in
  out.1.1 = Ok [7] /\
  ReadAccountStorage Double.scenario [1] 1 [9] out.1.2 = (Ok [7], out.1.2, []) /\
  (GetStorage NewStateCache [1] 1 [9] = None ->
   GetStorage out.1.2 [1] 1 [9] = Some (if Nat.eqb (length [7]) 0 then None else Some [7])).
Proof.
  intros out.
  assert (ReadAccountStorage Double.scenario [1] 1 [9] NewStateCache
          = (Ok [7], out.1.2, out.2)) as Hrun by (vm_compute; reflexivity).
  split; [vm_compute; reflexivity|].
  exact (ReadAccountStorage_read_stable Double.scenario [1] 1 [9] NewStateCache _ _ _ Hrun).
Defined.

Lemma ReadAccountStorage_frame_witness :
  let out := ReadAccountStorage Double.scenario [1] 1 [9] Double.warmed in
  accounts out.1.2 = accounts Double.warmed /\ codes out.1.2 = codes Double.warmed /\
  deletedAccounts out.1.2 = deletedAccounts Double.warmed /\
  accountTrie out.1.2 = accountTrie Double.warmed /\
  (forall slot, slot <> ([1], 1, [9]) -> storage out.1.2 !! slot = storage Double.warmed !! slot) /\
  (is_Some (GetStorage Double.warmed [1] 1 [9]) -> out.1.2 = Double.warmed /\ out.2 = []) /\
  (forall e, out.1.1 = Err e ->
     out.1.2 = Double.warmed /\ out.2 = [GetAccountStorage [1] 1 [9]] /\
     readAccountStorage Double.scenario [1] 1 [9] = Err e).
Proof.
  intros out.
  assert (ReadAccountStorage Double.scenario [1] 1 [9] Double.warmed
          = (out.1.1, out.1.2, out.2))
    as Hrun by (subst out; destruct (ReadAccountStorage _ _ _ _ _) as [[? ?] ?]; reflexivity).
  exact (ReadAccountStorage_frame Double.scenario [1] 1 [9] Double.warmed _ _ _ Hrun).
Defined.

Lemma ReadAccountCode_hash_not_keyed_witness :
  let out := Double.ReadAccountCode (Double.codeStore 1024) [1] 1 [2] NewStateCache in
  (forall h2, h2 <> Double.emptyCodeHash ->
     Double.ReadAccountCode (Double.codeStore 1024) [1] 1 h2 out.1.2
     = (Ok (Double.blob 1024), out.1.2, [])) /\
  Double.ReadAccountCode (Double.codeStore 1024) [1] 1 Double.emptyCodeHash out.1.2
  = (Ok [], out.1.2, []).
Proof.
  intros out.
  assert (Double.ReadAccountCode (Double.codeStore 1024) [1] 1 [2] NewStateCache
          = (Ok (Double.blob 1024), out.1.2, out.2)) as Hrun by (vm_compute; reflexivity).
  apply (ReadAccountCode_hash_not_keyed Double.emptyCodeHash (Double.codeStore 1024)
           NewStateCache [1] 1 [2] (Double.blob 1024) out.1.2 out.2).
  - discriminate.
  - reflexivity.
  - exact Hrun.
  - vm_compute. reflexivity.
Defined.

Lemma ReadAccountCode_frame_witness :
  let out := Double.ReadAccountCode (Double.codeStore 1025) [1] 1 [2] Double.warmed in
  accounts out.1.2 = accounts Double.warmed /\ storage out.1.2 = storage Double.warmed /\
  deletedAccounts out.1.2 = deletedAccounts Double.warmed /\
  accountTrie out.1.2 = accountTrie Double.warmed /\
  (forall slot, slot <> ([1], 1) -> codes out.1.2 !! slot = codes Double.warmed !! slot) /\
  ([2] = Double.emptyCodeHash \/ is_Some (GetCode Double.warmed [1] 1) ->
   out.1.2 = Double.warmed /\ out.2 = []) /\
  (forall e, out.1.1 = Err e -> out.1.2 = Double.warmed) /\
  (forall code, out.1.1 = Ok code -> (1024 < length code)%nat -> out.1.2 = Double.warmed).
Proof.
  intros out.
  assert (Double.ReadAccountCode (Double.codeStore 1025) [1] 1 [2] Double.warmed
          = (out.1.1, out.1.2, out.2))
    as Hrun by (subst out; destruct (Double.ReadAccountCode _ _ _ _ _) as [[? ?] ?];
                reflexivity).
  exact (ReadAccountCode_frame Double.emptyCodeHash (Double.codeStore 1025) [1] 1 [2]
           Double.warmed _ _ _ Hrun).
Defined.

Lemma ReadAccountCodeSize_of_code_witness :
  let out := Double.ReadAccountCode (Double.codeStore 1024) [1] 1 [2] NewStateCache in
  ReadAccountCodeSize Double.emptyCodeHash (Double.codeStore 1024) [1] 1 [2] NewStateCache
  = ((1024%nat, None), out.1.2, [GetAccountCode [1] 1 [2]]) /\
  ReadAccountCodeSize Double.emptyCodeHash (Double.codeStore 1024) [1] 1 [2] out.1.2
  = ((1024%nat, None), out.1.2, []).
Proof.
  intros out.
  assert (Double.ReadAccountCode (Double.codeStore 1024) [1] 1 [2] NewStateCache
          = (Ok (Double.blob 1024), out.1.2, [GetAccountCode [1] 1 [2]]))
    as Hrun by (vm_compute; reflexivity).
  destruct (ReadAccountCodeSize_of_code Double.emptyCodeHash (Double.codeStore 1024)
              [1] 1 [2] NewStateCache _ _ _ Hrun) as [Hsize Hagain].
  split; [exact Hsize|].
  apply (Hagain (Double.blob 1024) eq_refl). vm_compute. reflexivity.
Defined.

Lemma accountScan_aims_at_target_witness :
  take (length [15; 0]) (DecompressNibbles (accountScanKey [15; 0])) = [15; 0] /\
  take (length [15; 0]) (DecompressNibbles (hashAddress Double.sha Double.accF0A9))
  = [15; 0] /\
  (length [15; 0] <= 64)%nat /\
  (accountScanBits Double.nodeF0.1 = 4 * Z.of_nat (length Double.nodeF0.1))%Z /\
  (accountScanBits Double.nodeF0.1
   <= 8 * Z.of_nat (length (accountScanKey Double.nodeF0.1)))%Z.
Proof.
  apply (accountScan_aims_at_target Double.sha Double.warmed Double.accF0A9
           [15; 0] true true false).
  vm_compute. reflexivity.
Defined.


Lemma ReadAccountData_index_kept_witness :
  let out := Double.ReadAccountData Double.scenario Double.accF0C2 Double.emptySubtree in
  (forall k, is_Some (accountTrie Double.emptySubtree !! k) ->
             is_Some (accountTrie out.1.2 !! k)) /\
  (is_Some (GetAccount Double.sha Double.emptySubtree Double.accF0C2) \/
   is_Some (deepestPrefix Double.emptySubtree
              (DecompressNibbles (hashAddress Double.sha Double.accF0C2))) ->
   trieScans out.2 = 0%nat).
Proof.
  intros out.
  assert (Double.ReadAccountData Double.scenario Double.accF0C2 Double.emptySubtree
          = (out.1.1, out.1.2, out.2))
    as Hrun by (subst out; destruct (Double.ReadAccountData _ _ _) as [[? ?] ?]; reflexivity).
  exact (ReadAccountData_index_kept Double.sha Double.DecodeForStorage
           Double.UnmarshalTrieNodeTyped Double.scenario Double.accF0C2 Double.emptySubtree
           _ _ _ Hrun).
Defined.
